(** * VSCX: the quick-pick string parser, the text helpers and the
      temporary-message timer

    A shallow embedding of the pure and timer-driven parts of the VSCX
    convenience library (TypeScript, on top of the VS Code extension API):

    - [_strToQP], the parser that turns an annotated string into a quick-pick
      entry;
    - [camelize] and [withinCharLimit], two text helpers;
    - [temporaryMessage], the progress notification driven by [setInterval]
      and [setTimeout].

    JavaScript strings are modelled as [string], one [ascii] per code unit, so
    the development covers the code units U+0000 to U+00FF.  A method call on
    [undefined] is an abrupt completion ([TypeError]). *)

From Stdlib Require Import List Ascii String Bool Arith ZArith QArith Lia.
Import ListNotations.

Close Scope Q_scope.
Open Scope nat_scope.
Open Scope list_scope.
Open Scope string_scope.

(** ** Completions: values or a thrown TypeError *)

Inductive Completion (A : Type) : Type :=
| Normal (v : A)
| TypeError.

Arguments Normal {A} v.
Arguments TypeError {A}.

Definition bind {A B : Type} (c : Completion A) (k : A -> Completion B)
  : Completion B :=
  match c with
  | Normal v => k v
  | TypeError => TypeError
  end.

Declare Scope completion_scope.
Delimit Scope completion_scope with completion.
Notation "x <- c ;; k" := (bind c (fun x => k))
  (at level 61, c at next level, right associativity) : completion_scope.
Notation "' p <- c ;; k" := (bind c (fun x => let 'p := x in k))
  (at level 61, p pattern, c at next level, right associativity)
  : completion_scope.

(** ** The JavaScript built-ins the library calls *)

Module JS.

(** [arr[i]]: an element that is not there reads as [undefined].  Every
    read of the functions below is followed, on every path, by a method
    call on the value read ([.trim()], [.split()], [.toLowerCase()]), which
    throws a TypeError on [undefined]; the model throws at the read. *)
Definition at_ {A : Type} (arr : list A) (i : nat) : Completion A :=
  match nth_error arr i with
  | Some v => Normal v
  | None => TypeError
  end.

Definition code (c : ascii) : nat := nat_of_ascii c.

(** WhiteSpace and LineTerminator code units below U+0100: TAB, LF, VT, FF,
    CR, SP and NBSP.  This is the class of [\s], [trim], [trimStart] and
    [trimEnd]. *)
Definition isWhiteSpace (c : ascii) : bool :=
  (((9 <=? code c) && (code c <=? 13)) || (code c =? 32)
   || (code c =? 160))%nat.

(** The class [[a-zA-Z0-9]]. *)
Definition isAlnum (c : ascii) : bool :=
  (((48 <=? code c) && (code c <=? 57))
   || ((65 <=? code c) && (code c <=? 90))
   || ((97 <=? code c) && (code c <=? 122)))%nat.

Fixpoint trimStart (s : string) : string :=
  match s with
  | "" => ""
  | String c r => if isWhiteSpace c then trimStart r else s
  end.

Fixpoint trimEnd (s : string) : string :=
  match s with
  | "" => ""
  | String c r =>
      match trimEnd r with
      | "" => if isWhiteSpace c then "" else String c ""
      | r' => String c r'
      end
  end.

Definition trim (s : string) : string := trimEnd (trimStart s).

(** [s.startsWith(p)] *)
Definition startsWith (s p : string) : bool := prefix p s.

Fixpoint drop (n : nat) (s : string) : string :=
  match n, s with
  | O, _ => s
  | S _, "" => ""
  | S n', String _ r => drop n' r
  end.

(** [s.slice(from, to)] and [s.slice(from)] for indices that are not
    negative. *)
Definition slice (s : string) (from to : nat) : string :=
  substring from (to - from) s.

Definition sliceFrom (s : string) (from : nat) : string := drop from s.

(** [s.charAt(0)] *)
Definition charAt0 (s : string) : string :=
  match s with
  | "" => ""
  | String c _ => String c ""
  end.

(** Case mapping of the code units below U+0080.  The library maps only
    words made of [[a-zA-Z0-9]]. *)
Definition lowerChar (c : ascii) : ascii :=
  if ((65 <=? code c) && (code c <=? 90))%nat then ascii_of_nat (code c + 32)
  else c.

Definition upperChar (c : ascii) : ascii :=
  if ((97 <=? code c) && (code c <=? 122))%nat then ascii_of_nat (code c - 32)
  else c.

Fixpoint mapChars (f : ascii -> ascii) (s : string) : string :=
  match s with
  | "" => ""
  | String c r => String (f c) (mapChars f r)
  end.

Definition toLowerCase : string -> string := mapChars lowerChar.
Definition toUpperCase : string -> string := mapChars upperChar.

(** *** [String.prototype.split] with a string separator

    The specification's loop keeps [p], where the current piece starts, and
    moves [q] forward from [p] until SplitMatch succeeds at [q].
    [findSplit sep s] is that scan on [s = S[p..]]: the piece [S[p..q)] and
    the text after the match, [S[e..]]. *)
Fixpoint findSplit (sep s : string) : option (string * string) :=
  if prefix sep s then Some ("", drop (length sep) s)
  else
    match s with
    | "" => None
    | String c r =>
        match findSplit sep r with
        | Some (piece, rest) => Some (String c piece, rest)
        | None => None
        end
    end.

Fixpoint splitLoop (fuel : nat) (sep s : string) : list string :=
  match fuel with
  | O => [s]
  | S fuel' =>
      match findSplit sep s with
      | None => [s]
      | Some (piece, rest) => piece :: splitLoop fuel' sep rest
      end
  end.

Fixpoint chars (s : string) : list string :=
  match s with
  | "" => []
  | String c r => String c "" :: chars r
  end.

(** [s.split(sep)].  Every match of a separator that is not empty consumes
    a code unit, so [length s] rounds are enough. *)
Definition split (s sep : string) : list string :=
  match sep with
  | "" => chars s
  | _ => splitLoop (length s) sep s
  end.

(** [arr.join(sep)] *)
Definition join (arr : list string) (sep : string) : string :=
  concat sep arr.

(** *** [split] with a regular expression [/[C]+/]

    The pieces are the texts between the maximal runs of code units of
    the class [C].  [inRun] tells that the code unit before belonged to a
    run; the head of the result is the piece that is being read. *)
Fixpoint splitRunsFrom (C : ascii -> bool) (inRun : bool) (s : string)
  : list string :=
  match s with
  | "" => [""]
  | String c r =>
      if C c then
        if inRun then splitRunsFrom C true r
        else "" :: splitRunsFrom C true r
      else
        match splitRunsFrom C false r with
        | piece :: rest => String c piece :: rest
        | [] => [String c ""]
        end
  end.

Definition splitRuns (C : ascii -> bool) (s : string) : list string :=
  splitRunsFrom C false s.

(** [s.match(/^_+/)] and [s.match(/_+$/)]: the matched text, [None] for
    [null]. *)
Fixpoint leadingUnderscores (s : string) : string :=
  match s with
  | String "_" r => String "_" (leadingUnderscores r)
  | _ => ""
  end.

Fixpoint trailingUnderscores (s : string) : string :=
  match s with
  | "" => ""
  | String c r =>
      if (c =? "_")%char && (trailingUnderscores r =? r)
      then s
      else trailingUnderscores r
  end.

Definition matchStartUnderscores (s : string) : option string :=
  match leadingUnderscores s with
  | "" => None
  | m => Some m
  end.

Definition matchEndUnderscores (s : string) : option string :=
  match trailingUnderscores s with
  | "" => None
  | m => Some m
  end.

(** A string is truthy when it is not empty. *)
Definition truthy (s : string) : bool := negb (s =? "").

End JS.

(** ** QUICKPICK *)

Module QuickPick.
Import JS.
#[local] Open Scope completion_scope.

(** The two object shapes [_strToQP] returns. *)
Inductive Entry : Type :=
| Separator (label kind : string)
| Item (alwaysShow : bool) (label description detail : string).

(** The lambda [split] of [_strToQP]: split in two parts, the rest of the
    string in the last part. *)
Definition split2 (s pattern : string) : Completion (list string) :=
  let parts := split s pattern in
  if (2 <? List.length parts)%nat then
    p0 <- at_ parts 0 ;;
    Normal [p0; join (skipn 1 parts) pattern]
  else Normal parts.

Definition _strToQP (text : string) : Completion Entry :=
  if startsWith text "-----" then
    Normal (Separator (trimStart (slice text 0 5)) "SEP")
  else
    firstSplit <- split2 text "::" ;;
    label <- at_ firstSplit 0 ;;
    '(description, text) <-
      (if (1 <? List.length firstSplit)%nat then
         t <- at_ firstSplit 1 ;; Normal (t, t)
       else
         t <- at_ firstSplit 0 ;; Normal ("", t)) ;;
    secondSplit <- split2 text "??" ;;
    '(description, detail) <-
      (if (1 <? List.length secondSplit)%nat then
         d <- (if negb (description =? "") then at_ secondSplit 0
               else Normal description) ;;
         dt <- at_ secondSplit 1 ;;
         Normal (d, dt)
       else Normal (description, "")) ;;
    Normal (Item true (trim label) (trim description) (trim detail)).

End QuickPick.

(** ** DATA UTILS *)

Module DataUtils.
Import JS.
#[local] Open Scope completion_scope.

(** [w.charAt(0).toUpperCase() + w.slice(1).toLowerCase()] *)
Definition capitalize (w : string) : string :=
  toUpperCase (charAt0 w) ++ toLowerCase (sliceFrom w 1).

Definition camelize (text : string) (keepOuterUnderscores : bool)
  : Completion string :=
  let '(startUnderscores, endUnderscores) :=
    if keepOuterUnderscores then
      (match matchStartUnderscores text with Some m => m | None => "" end,
       match matchEndUnderscores text with Some m => m | None => "" end)
    else ("", "") in
  let words :=
    filter truthy (splitRuns (fun c => negb (isAlnum c)) (trim text)) in
  w0 <- at_ words 0 ;;
  let firstWord := toLowerCase w0 in
  let otherWords := map capitalize (skipn 1 words) in
  Normal (startUnderscores ++ firstWord ++ join otherWords ""
          ++ endUnderscores).

(** One round of the [for ... of] loop of [withinCharLimit], on the state
    [(lines, currentLine)]. *)
Definition addWord (limit : Z) (prefix : string)
  (st : list string * string) (word : string) : list string * string :=
  let '(lines, currentLine) := st in
  if (limit <? Z.of_nat (length currentLine + length word))%Z then
    ((lines ++ [trimEnd currentLine])%list, prefix)
  else
    (lines, currentLine ++ word ++ " ").

Definition newline : string := String (ascii_of_nat 10) "".

Definition withinCharLimit (text : string) (limit : Z) (prefix : string)
  (asArray : bool) : list string + string :=
  let '(lines, currentLine) :=
    fold_left (addWord limit prefix) (splitRuns isWhiteSpace text)
      ([], prefix) in
  let lines :=
    if truthy currentLine then (lines ++ [trimEnd currentLine])%list
    else lines in
  if asArray then inl lines else inr (join lines newline).

Definition pascalize (text : string) (keepOuterUnderscores : bool) : string :=
  let '(startUnderscores, endUnderscores) :=
    if keepOuterUnderscores then
      (match matchStartUnderscores text with Some m => m | None => "" end,
       match matchEndUnderscores text with Some m => m | None => "" end)
    else ("", "") in
  let words :=
    map capitalize
      (filter truthy (splitRuns (fun c => negb (isAlnum c)) (trim text))) in
  startUnderscores ++ join words "" ++ endUnderscores.

Definition within80Chars (text prefix : string) (asArray : bool)
  : list string + string :=
  withinCharLimit text 80 prefix asArray.

End DataUtils.

(** ** COMMANDS *)

Module Commands.
Import JS.

(** [arr.includes(x)] on an array of strings. *)
Definition includes (arr : list string) (x : string) : bool :=
  existsb (String.eqb x) arr.

(** [commandExists(...commandNames)], given the list [commands] that the
    host returns for [VSCX.commandList()]:
    [Boolean(commandNames.find((name) => commands.includes(name)))]. *)
Definition commandExists (commands commandNames : list string) : bool :=
  match find (fun name => includes commands name) commandNames with
  | Some name => truthy name
  | None => false
  end.

End Commands.

(** ** GETTERS: the indentation of the current line *)

Module Indentation.
Import JS.

(** A value, or a thrown RangeError. *)
Inductive Outcome (A : Type) : Type :=
| Returns (v : A)
| RangeError.

Arguments Returns {A} v.
Arguments RangeError {A}.

Fixpoint copies (s : string) (n : nat) : string :=
  match n with
  | O => ""
  | S n' => s ++ copies s n'
  end.

(** [s.repeat(count)] for a whole [count]: a negative count throws. *)
Definition repeat (s : string) (count : Z) : Outcome string :=
  if (count <? 0)%Z then RangeError else Returns (copies s (Z.to_nat count)).

(** What the library reads of the host's [TextLine] and [TextEditor]. *)
Record TextLine : Type := mkTextLine {
  text : string;
  firstNonWhitespaceCharacterIndex : nat
}.

Record TextEditor : Type := mkTextEditor {
  insertSpaces : bool;
  tabSize : Z;
  currentLine : TextLine
}.

Definition tab : string := String (ascii_of_nat 9) "".

(** [VSCX.indentText]; [None] is [undefined]. *)
Definition indentText (editor : option TextEditor)
  : Outcome (option string) :=
  match editor with
  | None => Returns None
  | Some e =>
      if insertSpaces e then
        match repeat " " (tabSize e) with
        | Returns s => Returns (Some s)
        | RangeError => RangeError
        end
      else Returns (Some tab)
  end.

(** [s.matchAll(new RegExp(indent, 'g'))] mapped to the matched texts, for
    a pattern without special characters (spaces, or a tab): the matches from
    left to right, none overlapping another.  The empty pattern matches
    before every code unit and at the end. *)
Fixpoint matchLoop (fuel : nat) (pattern s : string) : list string :=
  match fuel with
  | O => []
  | S fuel' =>
      match findSplit pattern s with
      | Some (_, rest) => pattern :: matchLoop fuel' pattern rest
      | None => []
      end
  end.

Definition matchAll (s pattern : string) : list string :=
  match pattern with
  | "" => List.repeat "" (S (length s))
  | _ => matchLoop (length s) pattern s
  end.

Record LineIndentation : Type := mkLineIndentation {
  list : list string;
  amount : nat;
  lineText : string
}.

(** [VSCX.currentLineIndentation]: an editor has a current line. *)
Definition currentLineIndentation (editor : option TextEditor)
  : Outcome (option LineIndentation) :=
  match editor with
  | None => Returns None
  | Some e =>
      let firstText := firstNonWhitespaceCharacterIndex (currentLine e) in
      match indentText editor with
      | Returns (Some indent) =>
          let foundTabs :=
            matchAll (slice (text (currentLine e)) 0 firstText) indent in
          Returns (Some (mkLineIndentation foundTabs (List.length foundTabs)
                           (text (currentLine e))))
      | Returns None => Returns None
      | RangeError => RangeError
      end
  end.

(** The method [offset(n)] of the object [VSCX.indent] returns, for a whole
    [n]: [level + n <= 0 ? '' : indent.repeat(level)]. *)
Definition offset (indent : string) (currentLevel n : Z) : Outcome string :=
  let level := (currentLevel + n)%Z in
  if (level + n <=? 0)%Z then Returns "" else repeat indent level.

(** [VSCX.indent.offset(n)] on an editor; [None] when [VSCX.indent] is
    [undefined]. *)
Definition indentOffset (editor : option TextEditor) (n : Z)
  : Outcome (option string) :=
  match currentLineIndentation editor with
  | Returns (Some indentInfo) =>
      match indentText editor with
      | Returns (Some indent) =>
          match offset indent (Z.of_nat (amount indentInfo)) n with
          | Returns s => Returns (Some s)
          | RangeError => RangeError
          end
      | Returns None => Returns None
      | RangeError => RangeError
      end
  | Returns None => Returns None
  | RangeError => RangeError
  end.

End Indentation.

(** ** MESSAGES: [temporaryMessage] on the timers of the runtime *)

Module Timers.

(** JavaScript numbers are modelled as exact rationals kept in lowest
    terms, so that equal numbers are equal terms. *)
Definition num (z : Z) : Q := inject_Z z.
Definition add (a b : Q) : Q := Qred (a + b).
Definition sub (a b : Q) : Q := Qred (a - b).
Definition mul (a b : Q) : Q := Qred (a * b).
(** [a / b]; for [b = 0] the source gets an infinity, the model 0: the
    statements on such quotients assume a divisor that is not 0. *)
Definition div (a b : Q) : Q := Qred (a / b).

Definition TIMEOUT_MAX : Z := 2147483647.

(** The delay of [setTimeout] and [setInterval] in Node.js, the runtime of
    the extension host: a delay below 1 or above [TIMEOUT_MAX] (or NaN)
    is set to 1, and a delay that is not whole is truncated. *)
Definition delayMs (after : Q) : Z :=
  if Qle_bool 1 after && Qle_bool after (num TIMEOUT_MAX) then
    Z.quot (Qnum after) (Zpos (Qden after))
  else 1%Z.

(** The three functions the source hands to the timers: the arrow function
    of [setInterval], the arrow function of the first [setTimeout], and
    the resolver [r] of the promise the task awaits. *)
Inductive Callback : Type := TickCb | JumpCb | ResolveCb.

Record Timer : Type := mkTimer {
  due : Z;
  repeat : option Z;
  callback : Callback
}.

(** The object given to [updateMessage].  The source renders each number
    as text ([toString], [toFixed]); the model keeps the numbers. *)
Record TemporaryMessageUpdate : Type := mkUpdate {
  update_tick : Z;
  update_percentage : Q;
  ms_passed : Q;
  ms_left : Q;
  seconds_passed : Q;
  seconds_left : Q
}.

(** What the program does that the host or the runtime can see. *)
Inductive Event : Type :=
| WithProgress (title : string) (cancellable : bool)
| Report (increment : Q) (message : option string)
| ClearInterval (handle : Z)
| Settled.

(** The virtual clock, the timer table by handle, the variables the
    closures share, and the events so far, newest first, each with the
    clock value at which it happened. *)
Record World : Type := mkWorld {
  now : Z;
  nextHandle : Z;
  timers : Z -> option Timer;
  tickLoop : Z;
  percentage : Q;
  tick : Z;
  currentMSLeft : Q;
  trace : list (Z * Event)
}.

Definition initial : World :=
  mkWorld 0 1 (fun _ => None) 0 0 0 0 [].

Definition update (table : Z -> option Timer) (h : Z) (v : option Timer)
  : Z -> option Timer :=
  fun k => if (k =? h)%Z then v else table k.

Definition emit (e : Event) (w : World) : World :=
  mkWorld (now w) (nextHandle w) (timers w) (tickLoop w) (percentage w)
    (tick w) (currentMSLeft w) ((now w, e) :: trace w).

Definition withTimers (table : Z -> option Timer) (w : World) : World :=
  mkWorld (now w) (nextHandle w) table (tickLoop w) (percentage w)
    (tick w) (currentMSLeft w) (trace w).

Definition withTickLoop (h : Z) (w : World) : World :=
  mkWorld (now w) (nextHandle w) (timers w) h (percentage w)
    (tick w) (currentMSLeft w) (trace w).

Definition withProgressVars (pc : Q) (tk : Z) (left : Q) (w : World)
  : World :=
  mkWorld (now w) (nextHandle w) (timers w) (tickLoop w) pc tk left
    (trace w).

Definition arm (periodic : bool) (cb : Callback) (after : Q) (w : World)
  : Z * World :=
  let d := delayMs after in
  let h := nextHandle w in
  let t := mkTimer (now w + d) (if periodic then Some d else None) cb in
  (h, mkWorld (now w) (h + 1) (update (timers w) h (Some t)) (tickLoop w)
        (percentage w) (tick w) (currentMSLeft w) (trace w)).

Definition setInterval : Callback -> Q -> World -> Z * World := arm true.
Definition setTimeout : Callback -> Q -> World -> Z * World := arm false.

(** [clearInterval(h)]: nothing happens when [h] is no active timer. *)
Definition clearInterval (h : Z) (w : World) : World :=
  emit (ClearInterval h) (withTimers (update (timers w) h None) w).

(** The options of [temporaryMessage], and their defaults. *)
Record Options : Type := mkOptions {
  ticks : Z;
  updateMessage : TemporaryMessageUpdate -> string;
  endLength : Z;
  cancellable : bool
}.

Definition defaultOptions : Options :=
  mkOptions 100 (fun _ => "") 300 false.

(** [vscode.window.withProgress] belongs to the host.  It either calls the
    task before it returns, or leaves the call for later, after the
    synchronous code that called it. *)
Inductive Host : Type := CallsTaskAtOnce | CallsTaskLater.

Section TemporaryMessage.
Variable message : string.
Variable time : Z.
Variable options : Options.

Let ticks_ := num (ticks options).
Let time_ := num time.
Let endLength_ := num (endLength options).

(** [const msLeft = () => time - time * (percentage / 100)] *)
Definition msLeft (pc : Q) : Q :=
  sub time_ (mul time_ (div pc (num 100))).

(** The body of the arrow function given to [setInterval]. *)
Definition onTick (w : World) : World :=
  let tick' := (tick w + 1)%Z in
  let percentage' :=
    if Qle_bool (num 100) (percentage w) then num 100
    else add (percentage w) (div (num 100) ticks_) in
  let currentMSLeft' := msLeft percentage' in
  emit
    (Report (div (num 100) ticks_)
       (Some (updateMessage options
                (mkUpdate tick' percentage'
                   (sub time_ currentMSLeft') currentMSLeft'
                   (div (sub time_ currentMSLeft') (num 1000))
                   (div currentMSLeft' (num 1000))))))
    (withProgressVars percentage' tick' currentMSLeft' w).

(** The body of the arrow function given to the first [setTimeout]. *)
Definition onJump (w : World) : World :=
  withProgressVars (num 100) (tick w) (currentMSLeft w)
    (emit (Report (num 100) None) w).

(** The resolver of the awaited promise: the task returns, and the
    promise [output] of [withProgress] is settled. *)
Definition onResolve (w : World) : World := emit Settled w.

Definition call (cb : Callback) : World -> World :=
  match cb with
  | TickCb => onTick
  | JumpCb => onJump
  | ResolveCb => onResolve
  end.

(** The task given to [withProgress], up to its [await]. *)
Definition task (w : World) : World :=
  let w := emit (Report (num 0) None) w in
  let w := withProgressVars (num 0) 0 time_ w in
  let '(h, w) :=
    setInterval TickCb (div (sub time_ endLength_) ticks_) w in
  let w := withTickLoop h w in
  let w :=
    if (0 <? endLength options)%Z then
      snd (setTimeout JumpCb (sub time_ endLength_) w)
    else w in
  snd (setTimeout ResolveCb time_ w).

(** The synchronous part of [temporaryMessage]: it ends when the
    function returns [output]. *)
Definition temporaryMessage (host : Host) (w : World) : World :=
  let w := withTickLoop (-1) w in
  let w := emit (WithProgress message (cancellable options)) w in
  match host with
  | CallsTaskAtOnce =>
      let w := task w in
      clearInterval (tickLoop w) w
  | CallsTaskLater =>
      let w := clearInterval (tickLoop w) w in
      task w
  end.

(** *** The event loop *)

(** The timer [t] of handle [h] fires: the clock moves to its due time,
    a periodic timer is armed again and a one-shot timer is removed,
    and the callback runs. *)
Definition fire (h : Z) (t : Timer) (w : World) : World :=
  let now' := Z.max (now w) (due t) in
  let table :=
    match repeat t with
    | Some d => update (timers w) h (Some (mkTimer (now' + d) (Some d)
                                             (callback t)))
    | None => update (timers w) h None
    end in
  call (callback t)
    (mkWorld now' (nextHandle w) table (tickLoop w) (percentage w)
       (tick w) (currentMSLeft w) (trace w)).

(** The loop runs a timer that is due first; which one, among timers
    due at the same time, is left open. *)
Definition Earliest (w : World) (h : Z) (t : Timer) : Prop :=
  timers w h = Some t
  /\ (forall h' t', timers w h' = Some t' -> (due t <= due t')%Z).

Inductive step (w : World) : World -> Prop :=
| step_fire (h : Z) (t : Timer) :
    Earliest w h t -> step w (fire h t w).

Inductive steps (w : World) : nat -> World -> Prop :=
| steps_O : steps w 0 w
| steps_S (n : nat) (w1 w2 : World) :
    steps w n w1 -> step w1 w2 -> steps w (S n) w2.

(** A loop that can be run: among the timers due first, the one of the
    lowest handle fires. *)
Fixpoint scan (table : Z -> option Timer) (h : Z) (count : nat)
  (best : option (Z * Timer)) : option (Z * Timer) :=
  match count with
  | O => best
  | S count' =>
      let best' :=
        match table h, best with
        | Some t, Some (_, b) =>
            if (due t <? due b)%Z then Some (h, t) else best
        | Some t, None => Some (h, t)
        | None, _ => best
        end in
      scan table (h + 1) count' best'
  end.

Definition next (w : World) : option (Z * Timer) :=
  scan (timers w) 1 (Z.to_nat (nextHandle w - 1)) None.

Fixpoint run (fuel : nat) (w : World) : World :=
  match fuel with
  | O => w
  | S fuel' =>
      match next w with
      | Some (h, t) => run fuel' (fire h t w)
      | None => w
      end
  end.

End TemporaryMessage.

(** The clock values of the reports of the tick timer, oldest first, with
    their increments. *)
Definition tickReports (tr : list (Z * Event)) : list (Z * Q) :=
  rev (flat_map (fun e => match e with
                          | (c, Report i (Some _)) => [(c, i)]
                          | _ => []
                          end) tr).

(** What a host shows that adds up the increments reported and caps the
    sum at 100. *)
Definition increments (tr : list (Z * Event)) : Q :=
  fold_right (fun e acc => match e with
                           | (_, Report i _) => (i + acc)%Q
                           | _ => acc
                           end) 0%Q tr.

Definition shown (tr : list (Z * Event)) : Q :=
  if Qle_bool (num 100) (increments tr) then num 100 else increments tr.

End Timers.

(** ** The predicates of the statements *)

Module Props.
Import JS QuickPick Timers.

(** [s] neither starts nor ends with white space. *)
Definition Trimmed (s : string) : Prop :=
(forall c r, s = String c r -> isWhiteSpace c = false)
/\ (forall r c, s = r ++ String c "" -> isWhiteSpace c = false).

(** Every code unit of [s] satisfies [P]. *)
Definition AllChars (P : ascii -> Prop) (s : string) : Prop :=
Forall P (list_ascii_of_string s).

(** [s] splits at the first occurrence of [sep] into [a] and [b]. *)
Definition FirstSplit (sep s a b : string) : Prop :=
s = a ++ sep ++ b
/\ (forall a' b', s = a' ++ sep ++ b' -> length a <= length a').

(** [sep] does not occur in [s]. *)
Definition Absent (sep s : string) : Prop :=
forall a b, s <> a ++ sep ++ b.

(** The entry [_strToQP] builds from a string that is not a separator. *)
Definition parsed (text : string) : Entry :=
match findSplit "::" text with
| Some (l, rest) =>
    match findSplit "??" rest with
    | Some (d, dt) => Item true (trim l) (trim d) (trim dt)
    | None => Item true (trim l) (trim rest) ""
    end
| None =>
    match findSplit "??" text with
    | Some (_, dt) => Item true (trim text) "" (trim dt)
    | None => Item true (trim text) "" ""
    end
end.

#[local] Open Scope Z_scope.

(** [r] is a timer due first among the handles from [lo] below [hi]. *)
Definition Best (table : Z -> option Timer) (lo hi : Z)
(r : option (Z * Timer)) : Prop :=
match r with
| Some (h, t) =>
    table h = Some t
    /\ (forall k t', lo <= k < hi -> table k = Some t' ->
                     due t <= due t')
| None => forall k, lo <= k < hi -> table k = None
end.

(** Every timer of the table has a handle from 1 below [nextHandle]. *)
Definition Supported (w : World) : Prop :=
1 <= nextHandle w
/\ (forall h t, timers w h = Some t -> 1 <= h < nextHandle w).

(** The event a callback adds to the trace. *)
Definition eventOf (options : Options) (cb : Callback) (e : Event) : Prop :=
match cb with
| TickCb => exists m, e = Report (div (num 100) (num (ticks options)))
                            (Some m)
| JumpCb => e = Report (num 100) None
| ResolveCb => e = Settled
end.

(** What holds of every state of every run: the one call of
  [clearInterval] happened at clock 0, timers are due at 1 or later,
  and the tick timer is gone for good or armed for good. *)
Record ClearedAtStart (host : Host) (w : World) : Prop := {
cas_due : forall h t,
  timers w h = Some t ->
  1 <= due t /\ (forall d, repeat t = Some d -> 1 <= d);
cas_clear : exists h, In (0, ClearInterval h) (trace w);
cas_only : forall c h, In (c, ClearInterval h) (trace w) -> c = 0;
cas_settled : forall c, In (c, Settled) (trace w) -> 1 <= c;
cas_at_once :
  host = CallsTaskAtOnce ->
  In (0, ClearInterval 1) (trace w)
  /\ tickReports (trace w) = []
  /\ (forall h t, timers w h = Some t -> callback t <> TickCb);
cas_later :
  host = CallsTaskLater ->
  In (0, ClearInterval (-1)) (trace w)
  /\ exists t,
      timers w 1 = Some t /\ callback t = TickCb /\ repeat t <> None
}.

(** What holds of every state of every run: no timer is overdue, and the
    resolver runs at clock [T] only. *)
Definition SettlesAt (T : Z) (w : World) : Prop :=
  (forall h t,
      timers w h = Some t ->
      now w <= due t
      /\ (forall d, repeat t = Some d -> 0 <= d)
      /\ (callback t = ResolveCb -> due t = T /\ repeat t = None))
  /\ (forall c, In (c, Settled) (trace w) -> c = T).

Definition jumpTimer (time : Z) (options : Options) : Timer :=
mkTimer (time - endLength options) None JumpCb.

Definition resolveTimer (time : Z) : Timer := mkTimer time None ResolveCb.

(** The report of the arrow function given to the first [setTimeout]. *)
Definition jumpEvent : Event := Report (num 100) None.

(** What holds of every state of every run when
  [0 < endLength < time <= TIMEOUT_MAX]: the tick timer has the handle 1,
  the jump the handle 2 and the resolver the handle 3; the jump is
  pending, or it was made at clock [time - endLength] and the percentage
  is 100; the resolver is pending, or the operation settled at clock
  [time], after the jump. *)
Record Holds100 (time : Z) (options : Options) (host : Host) (w : World)
: Prop := {
h_next : nextHandle w = 4;
h_other : forall h, h <> 1 -> h <> 2 -> h <> 3 -> timers w h = None;
h_tick :
  match host with
  | CallsTaskAtOnce => timers w 1 = None
  | CallsTaskLater =>
      exists dT d,
        timers w 1 = Some (mkTimer dT (Some d) TickCb)
        /\ 1 <= d /\ now w <= dT
  end;
h_jump :
  (timers w 2 = Some (jumpTimer time options)
   /\ now w <= time - endLength options
   /\ forall c, ~ In (c, jumpEvent) (trace w))
  \/ (timers w 2 = None
      /\ In (time - endLength options, jumpEvent) (trace w)
      /\ percentage w = num 100
      /\ time - endLength options <= now w);
h_resolve :
  (timers w 3 = Some (resolveTimer time)
   /\ now w <= time
   /\ forall c, ~ In (c, Settled) (trace w))
  \/ (timers w 3 = None
      /\ In (time, Settled) (trace w)
      /\ timers w 2 = None);
h_jump_at :
  forall c, In (c, jumpEvent) (trace w) -> c = time - endLength options;
h_settled_at : forall c, In (c, Settled) (trace w) -> c = time;
h_increments :
  0 < ticks options ->
  forall c i m, In (c, Report i m) (trace w) -> (0 <= i)%Q
}.

(** The rounds the loop can still make before the resolver has run. *)
Definition rounds (time : Z) (w : World) : Z :=
(match timers w 2 with Some _ => 1 | None => 0 end)
+ (match timers w 3 with Some _ => 1 | None => 0 end)
+ (match timers w 1 with
   | Some t => Z.max 0 (time + 1 - due t)
   | None => 0
   end).

(** *** Every schedule: what is pending and what has happened *)

Definition overHandles (f : option Timer -> Z) (table : Z -> option Timer)
  : Z :=
  f (table 1) + f (table 2) + f (table 3).

(** 1 for a timer that runs the callback [cb]. *)
Definition runs (cb : Callback) (o : option Timer) : Z :=
  match o with
  | Some t =>
      match callback t, cb with
      | TickCb, TickCb | JumpCb, JumpCb | ResolveCb, ResolveCb => 1
      | _, _ => 0
      end
  | None => 0
  end.

(** The firings a timer can still make up to clock [T]. *)
Definition weight (T : Z) (o : option Timer) : Z :=
  match o with
  | Some t =>
      match repeat t with
      | Some _ => Z.max 0 (T + 1 - due t)
      | None => 1
      end
  | None => 0
  end.

Definition isJump (e : Event) : bool :=
  match e with
  | Report i None => Qeq_bool i (num 100)
  | _ => false
  end.

Definition isSettled (e : Event) : bool :=
  match e with
  | Settled => true
  | _ => false
  end.

(** How many events of the trace satisfy [p]. *)
Definition happened (p : Event -> bool) (tr : list (Z * Event)) : Z :=
  Z.of_nat (List.length (filter (fun e => p (snd e)) tr)).

(** What holds of every state of every run, whatever the numbers given:
    the timers have the handles 1 to 3 and none is overdue; the tick timer
    alone is periodic; the resolver is pending or has run, once; the jump
    is pending or has been made, once, when [endLength > 0]; a report is
    the first one, the jump, or one of the tick timer. *)
Record Alive (time : Z) (options : Options) (w : World) : Prop := {
  a_supported : Supported w;
  a_other : forall h, h <> 1 -> h <> 2 -> h <> 3 -> timers w h = None;
  a_timers : forall h t,
    timers w h = Some t ->
    now w <= due t
    /\ match callback t with
       | TickCb => exists d, repeat t = Some d /\ 1 <= d
       | JumpCb =>
           repeat t = None
           /\ due t = delayMs (sub (num time) (num (endLength options)))
       | ResolveCb => repeat t = None /\ due t = delayMs (num time)
       end;
  a_settled :
    happened isSettled (trace w) + overHandles (runs ResolveCb) (timers w)
    = 1;
  a_jump :
    happened isJump (trace w) + overHandles (runs JumpCb) (timers w)
    = if 0 <? endLength options then 1 else 0;
  a_reports : forall c i m,
    In (c, Report i m) (trace w) ->
    (c = 0 /\ i = num 0 /\ m = None)
    \/ (c = delayMs (sub (num time) (num (endLength options)))
        /\ i = num 100 /\ m = None)
    \/ m <> None
}.

(** What holds of every state of every run with a host that calls the task
    later: the tick timer, of period [d], has reported [tick w] times, at
    the multiples of [d], and is armed for the next multiple. *)
Record Ticking (d : Z) (w : World) : Prop := {
  t_count : 0 <= tick w;
  t_clocks :
    map fst (tickReports (trace w))
    = map (fun j => Z.of_nat j * d) (seq 1 (Z.to_nat (tick w)));
  t_armed : timers w 1 = Some (mkTimer ((tick w + 1) * d) (Some d) TickCb);
  t_others : forall h t,
    timers w h = Some t -> callback t = TickCb -> h = 1
}.

End Props.

(** * Facts about the built-ins *)

Module JSFacts.
Import JS Props.

Lemma append_nil_r (s : string) : s ++ "" = s.
Proof. induction s as [|c s IH]; simpl; congruence. Qed.

Lemma append_assoc (a b c : string) : (a ++ b) ++ c = a ++ b ++ c.
Proof. induction a as [|x a IH]; simpl; congruence. Qed.

Lemma length_append (a b : string) :
  length (a ++ b) = length a + length b.
Proof. induction a as [|x a IH]; simpl; congruence. Qed.

Lemma prefix_append (p r : string) : prefix p (p ++ r) = true.
Proof.
  induction p as [|c p IH]; simpl.
  - destruct r; reflexivity.
  - destruct (ascii_dec c c) as [_|n]; [exact IH | contradiction].
Qed.

Lemma prefix_split (p s : string) :
  prefix p s = true -> s = p ++ drop (length p) s.
Proof.
  revert s; induction p as [|c p IH]; intros s H; simpl.
  - destruct s; reflexivity.
  - destruct s as [|d s]; simpl in H; [discriminate|].
    destruct (ascii_dec c d) as [->|_]; [|discriminate].
    f_equal. apply IH, H.
Qed.

Lemma drop_append (p r : string) : drop (length p) (p ++ r) = r.
Proof. induction p as [|c p IH]; simpl; [destruct r; reflexivity | exact IH]. Qed.

Lemma substring_prefix (p r : string) :
  substring 0 (length p) (p ++ r) = p.
Proof.
  induction p as [|c p IH]; simpl; [destruct r; reflexivity | congruence].
Qed.

Lemma prefix_nil_r (p : string) : p <> "" -> prefix p "" = false.
Proof. destruct p; [congruence | reflexivity]. Qed.

(** *** The scan for the first match *)

Lemma findSplit_eq (sep s : string) :
  findSplit sep s =
    if prefix sep s then Some ("", drop (length sep) s)
    else match s with
         | "" => None
         | String c r =>
             match findSplit sep r with
             | Some (piece, rest) => Some (String c piece, rest)
             | None => None
             end
         end.
Proof. destruct s; reflexivity. Qed.

Lemma findSplit_sound (sep : string) :
  forall s piece rest,
    findSplit sep s = Some (piece, rest) -> s = piece ++ sep ++ rest.
Proof.
  induction s as [|c s IH]; intros piece rest H; rewrite findSplit_eq in H.
  - destruct (prefix sep "") eqn:P; [|discriminate].
    injection H as <- <-. simpl. apply prefix_split, P.
  - destruct (prefix sep (String c s)) eqn:P.
    + injection H as <- <-. simpl. apply prefix_split, P.
    + destruct (findSplit sep s) as [[a b]|] eqn:F; [|discriminate].
      injection H as <- <-. simpl. f_equal. apply IH. reflexivity.
Qed.

(** The match found is the first one: no match starts earlier. *)
Lemma findSplit_first (sep : string) :
  forall s piece rest,
    findSplit sep s = Some (piece, rest) ->
    forall a b, s = a ++ sep ++ b -> length piece <= length a.
Proof.
  induction s as [|c s IH]; intros piece rest H a b E;
    rewrite findSplit_eq in H.
  - destruct (prefix sep ""); [|discriminate].
    injection H as <- <-. simpl. lia.
  - destruct (prefix sep (String c s)) eqn:P.
    + injection H as <- <-. simpl. lia.
    + destruct (findSplit sep s) as [[p r]|] eqn:F; [|discriminate].
      injection H as <- <-.
      destruct a as [|x a]; simpl in E.
      * rewrite E, prefix_append in P. discriminate.
      * injection E as -> ->. simpl.
        apply le_n_S. eapply IH; reflexivity.
Qed.

Lemma findSplit_complete (sep : string) :
  forall a b, findSplit sep (a ++ sep ++ b) <> None.
Proof.
  induction a as [|x a IH]; intros b; rewrite findSplit_eq.
  - simpl. rewrite prefix_append. discriminate.
  - destruct (prefix sep (String x a ++ sep ++ b)); [discriminate|].
    simpl. specialize (IH b).
    destruct (findSplit sep (a ++ sep ++ b)) as [[p r]|];
      [discriminate | congruence].
Qed.

Lemma findSplit_None (sep s : string) :
  findSplit sep s = None <-> (forall a b, s <> a ++ sep ++ b).
Proof.
  split.
  - intros H a b ->. exact (findSplit_complete sep a b H).
  - intros H. destruct (findSplit sep s) as [[p r]|] eqn:F; [|reflexivity].
    exfalso. exact (H p r (findSplit_sound _ _ _ _ F)).
Qed.

Lemma findSplit_nil (sep : string) : sep <> "" -> findSplit sep "" = None.
Proof. destruct sep; [congruence | reflexivity]. Qed.

(** *** [split] then [join] *)

Lemma splitLoop_not_nil (fuel : nat) (sep s : string) :
  splitLoop fuel sep s <> [].
Proof.
  destruct fuel; simpl; [discriminate|].
  destruct (findSplit sep s) as [[p r]|]; discriminate.
Qed.

Lemma concat_cons (sep a : string) (l : list string) :
  l <> [] -> concat sep (a :: l) = a ++ sep ++ concat sep l.
Proof. destruct l; [congruence | reflexivity]. Qed.

Lemma join_splitLoop (sep : string) :
  forall fuel s, join (splitLoop fuel sep s) sep = s.
Proof.
  unfold join. induction fuel as [|fuel IH]; intros s; simpl; [reflexivity|].
  destruct (findSplit sep s) as [[p r]|] eqn:F; [|reflexivity].
  rewrite concat_cons by apply splitLoop_not_nil.
  rewrite IH. symmetry. apply findSplit_sound, F.
Qed.

Lemma join_split (s sep : string) : sep <> "" -> join (split s sep) sep = s.
Proof.
  intros H. unfold split. destruct sep; [congruence|]. apply join_splitLoop.
Qed.

(** The fuel of [split] is enough: no piece holds the separator. *)
Lemma findSplit_piece_free (sep : string) :
  sep <> "" ->
  forall s piece rest,
    findSplit sep s = Some (piece, rest) -> findSplit sep piece = None.
Proof.
  intros Hsep s piece rest F. apply findSplit_None. intros a b E.
  pose proof (findSplit_sound _ _ _ _ F) as Es.
  rewrite E, !append_assoc in Es.
  pose proof (findSplit_first _ _ _ _ F a _ Es) as L.
  rewrite E, !length_append in L.
  destruct sep; [congruence | simpl in L; lia].
Qed.

Lemma findSplit_length (sep : string) :
  forall s piece rest,
    findSplit sep s = Some (piece, rest) ->
    length s = length piece + length sep + length rest.
Proof.
  intros s piece rest F. rewrite (findSplit_sound _ _ _ _ F) at 1.
  rewrite !length_append. lia.
Qed.

Lemma splitLoop_pieces_free (sep : string) :
  sep <> "" ->
  forall fuel s, length s <= fuel ->
    Forall (fun piece => findSplit sep piece = None) (splitLoop fuel sep s).
Proof.
  intros Hsep. induction fuel as [|fuel IH]; intros s L; simpl.
  - destruct s; [|simpl in L; lia].
    constructor; [apply findSplit_nil, Hsep | constructor].
  - destruct (findSplit sep s) as [[p r]|] eqn:F.
    + constructor; [eapply findSplit_piece_free; eassumption|].
      apply IH. pose proof (findSplit_length _ _ _ _ F).
      destruct sep; [congruence | simpl in *; lia].
    + constructor; [exact F | constructor].
Qed.

(** *** Trimming *)

Lemma trimStart_head (s : string) :
  forall c r, trimStart s = String c r -> isWhiteSpace c = false.
Proof.
  induction s as [|x s IH]; intros c r H; simpl in H; [discriminate|].
  destruct (isWhiteSpace x) eqn:W; [eauto|].
  injection H as <- <-. exact W.
Qed.

Lemma trimEnd_head (c : ascii) (r : string) :
  isWhiteSpace c = false -> exists r', trimEnd (String c r) = String c r'.
Proof.
  intros W. simpl. destruct (trimEnd r); rewrite ?W; eauto.
Qed.

Lemma trimEnd_last (s : string) :
  forall r c, trimEnd s = r ++ String c "" -> isWhiteSpace c = false.
Proof.
  induction s as [|x s IH]; intros r c H; simpl in H.
  - destruct r; discriminate.
  - destruct (trimEnd s) as [|y t] eqn:T.
    + destruct (isWhiteSpace x) eqn:W.
      * destruct r; discriminate.
      * destruct r as [|z r]; simpl in H.
        -- injection H as <-. exact W.
        -- injection H as _ H. destruct r; discriminate.
    + destruct r as [|z r]; simpl in H; [discriminate|].
      injection H as _ H. eapply IH. exact H.
Qed.

Lemma trim_Trimmed (s : string) : Trimmed (trim s).
Proof.
  unfold trim. split.
  - intros c r H.
    destruct (trimStart s) as [|x t] eqn:T; [discriminate|].
    pose proof (trimStart_head s x t T) as W.
    destruct (trimEnd_head x t W) as [r' E]. rewrite E in H.
    injection H as <- _. exact W.
  - apply trimEnd_last.
Qed.

Lemma trimStart_fixed (s : string) :
  (forall c r, s = String c r -> isWhiteSpace c = false) -> trimStart s = s.
Proof.
  destruct s as [|c r]; intros H; simpl; [reflexivity|].
  rewrite (H c r eq_refl). reflexivity.
Qed.

Lemma trimEnd_fixed (s : string) :
  (forall r c, s = r ++ String c "" -> isWhiteSpace c = false) ->
  trimEnd s = s.
Proof.
  induction s as [|x s IH]; intros H; simpl; [reflexivity|].
  rewrite IH.
  - destruct s as [|y t]; [|reflexivity].
    rewrite (H "" x eq_refl). reflexivity.
  - intros r c E. apply (H (String x r) c). simpl. congruence.
Qed.

Lemma trim_fixed (s : string) : Trimmed s -> trim s = s.
Proof.
  intros [H1 H2]. unfold trim.
  rewrite (trimStart_fixed s H1). apply trimEnd_fixed, H2.
Qed.

Lemma trim_idempotent (s : string) : trim (trim s) = trim s.
Proof. apply trim_fixed, trim_Trimmed. Qed.

End JSFacts.

(** * QUICKPICK: the parser [_strToQP] *)

Module QuickPickFacts.
Import JS Props JSFacts QuickPick.

Lemma append_same_length (a a' x y : string) :
  a ++ x = a' ++ y -> length a = length a' -> a = a' /\ x = y.
Proof.
  revert a'. induction a as [|c a IH]; intros [|c' a'] E L;
    simpl in *; try discriminate; [auto|].
  injection E as -> E. injection L as L.
  destruct (IH a' E L) as [-> ->]. auto.
Qed.

Lemma FirstSplit_findSplit (sep s a b : string) :
  FirstSplit sep s a b <-> findSplit sep s = Some (a, b).
Proof.
  split.
  - intros [E M].
    destruct (findSplit sep s) as [[p r]|] eqn:F.
    + pose proof (findSplit_sound _ _ _ _ F) as Es.
      pose proof (findSplit_first _ _ _ _ F a b E) as L1.
      pose proof (M p r Es) as L2.
      rewrite E in Es.
      destruct (append_same_length a p _ _ Es) as [-> Er]; [lia|].
      destruct (append_same_length sep sep _ _ Er eq_refl) as [_ ->].
      reflexivity.
    + exfalso. exact (proj1 (findSplit_None sep s) F a b E).
  - intros F. split.
    + apply findSplit_sound, F.
    + apply (findSplit_first _ _ _ _ F).
Qed.

Lemma Absent_findSplit (sep s : string) :
  Absent sep s <-> findSplit sep s = None.
Proof. symmetry. apply findSplit_None. Qed.

Lemma Absent_tail (sep sep' s a b : string) :
  Absent sep s -> s = a ++ sep' ++ b -> Absent sep b.
Proof.
  intros H E x y ->. apply (H (a ++ sep' ++ x) y).
  rewrite E, !append_assoc. reflexivity.
Qed.

(** The lambda [split] returns the text before the first match and the
    whole text after it, or the text alone. *)
Lemma split2_spec (s sep : string) :
  sep <> "" ->
  split2 s sep =
    Normal match findSplit sep s with
           | Some (a, b) => [a; b]
           | None => [s]
           end.
Proof.
  intros Hsep. unfold split2.
  replace (split s sep) with (splitLoop (length s) sep s)
    by (destruct sep; [congruence | reflexivity]).
  destruct (length s) as [|n] eqn:L.
  - destruct s; [|discriminate]. rewrite findSplit_nil by exact Hsep.
    reflexivity.
  - simpl splitLoop. destruct (findSplit sep s) as [[a b]|]; [|reflexivity].
    pose proof (join_splitLoop sep n b) as J.
    pose proof (splitLoop_not_nil n sep b) as N.
    destruct (splitLoop n sep b) as [|x [|y l]]; [congruence| |].
    + simpl in J. subst x. reflexivity.
    + change (skipn 1 (a :: x :: y :: l)) with (x :: y :: l).
      rewrite J. reflexivity.
Qed.

Lemma strToQP_parsed (text : string) :
  startsWith text "-----" = false -> _strToQP text = Normal (parsed text).
Proof.
  intros H. unfold _strToQP, parsed. rewrite H.
  rewrite split2_spec by discriminate.
  destruct (findSplit "::" text) as [[l rest]|]; simpl.
  - rewrite split2_spec by discriminate.
    destruct (findSplit "??" rest) as [[d dt]|] eqn:F; simpl.
    + destruct rest; [discriminate | reflexivity].
    + reflexivity.
  - rewrite split2_spec by discriminate.
    destruct (findSplit "??" text) as [[d dt]|]; reflexivity.
Qed.

Lemma Trimmed_nil : Trimmed "".
Proof. split; [intros c r H | intros [|? ?] c H]; discriminate. Qed.

Lemma parsed_Trimmed (text : string) :
  exists l d dt,
    parsed text = Item true l d dt
    /\ Trimmed l /\ Trimmed d /\ Trimmed dt.
Proof.
  unfold parsed.
  destruct (findSplit "::" text) as [[l rest]|];
    [destruct (findSplit "??" rest) as [[d dt]|]
    |destruct (findSplit "??" text) as [[d dt]|]];
    do 3 eexists; (split; [reflexivity|]);
    (split; [|split]); first [apply trim_Trimmed | apply Trimmed_nil].
Qed.

(** C1.  A string that begins with the separator marker "-----" yields a
    separator entry whose label is the marker itself, since the code takes
    [text.slice(0, 5)]: the text after the marker is lost, and
    "----- Section A" yields the label "-----", not "Section A". *)
Theorem strToQP_separator_label :
  (forall text,
      startsWith text "-----" = true ->
      _strToQP text = Normal (Separator "-----" "SEP"))
  /\ _strToQP "----- Section A" = Normal (Separator "-----" "SEP")
  /\ trimStart (sliceFrom "----- Section A" 5) = "Section A".
Proof.
  split; [|split; reflexivity].
  intros text H. unfold _strToQP. rewrite H.
  unfold slice. change (5 - 0) with (length "-----").
  rewrite (prefix_split _ _ H), substring_prefix. reflexivity.
Qed.

Lemma strToQP_separator_label_witness :
  startsWith "-----tail" "-----" = true
  /\ _strToQP "-----tail" = Normal (Separator "-----" "SEP").
Proof.
  split; [reflexivity|].
  apply (proj1 strToQP_separator_label). reflexivity.
Defined.

(** C2, as stated, fails: in "Label??Detail" the description is not set by
    a "::" split, the text holds "??", and the description stays empty
    instead of the part before "??". *)
Lemma strToQP_description_counterexample :
  startsWith "Label??Detail" "-----" = false
  /\ Absent "::" "Label??Detail"
  /\ FirstSplit "??" "Label??Detail" "Label" "Detail"
  /\ _strToQP "Label??Detail" = Normal (Item true "Label??Detail" "" "Detail")
  /\ "" <> trim "Label".
Proof.
  split; [reflexivity|].
  split; [apply Absent_findSplit; reflexivity|].
  split; [apply FirstSplit_findSplit; reflexivity|].
  split; [reflexivity | discriminate].
Qed.

(** C2, amended.  For a string that is not a separator, when the remainder
    (the text after the first "::", or the whole text without "::") holds
    "??", the detail is the trimmed text after the first "??"; the
    description is the trimmed text before that "??" when the "::" split
    had set it, and stays empty when there is no "::".
    "Label::Desc??Detail" yields Label, Desc, Detail. *)
Theorem strToQP_detail_split :
  (forall text l rest before after,
      startsWith text "-----" = false ->
      FirstSplit "::" text l rest ->
      FirstSplit "??" rest before after ->
      _strToQP text
      = Normal (Item true (trim l) (trim before) (trim after)))
  /\ (forall text before after,
         startsWith text "-----" = false ->
         Absent "::" text ->
         FirstSplit "??" text before after ->
         _strToQP text = Normal (Item true (trim text) "" (trim after)))
  /\ _strToQP "Label::Desc??Detail"
     = Normal (Item true "Label" "Desc" "Detail").
Proof.
  split; [|split; [|reflexivity]].
  - intros text l rest before after H F1 F2.
    rewrite strToQP_parsed by exact H. unfold parsed.
    apply FirstSplit_findSplit in F1, F2. rewrite F1, F2. reflexivity.
  - intros text before after H A F.
    rewrite strToQP_parsed by exact H. unfold parsed.
    apply Absent_findSplit in A. apply FirstSplit_findSplit in F.
    rewrite A, F. reflexivity.
Qed.

Lemma strToQP_detail_split_witness :
  (startsWith "a :: b ?? c" "-----" = false
   /\ FirstSplit "::" "a :: b ?? c" "a " " b ?? c"
   /\ FirstSplit "??" " b ?? c" " b " " c")
  /\ _strToQP "a :: b ?? c" = Normal (Item true "a" "b" "c").
Proof.
  assert (H : startsWith "a :: b ?? c" "-----" = false) by reflexivity.
  assert (F1 : FirstSplit "::" "a :: b ?? c" "a " " b ?? c")
    by (apply FirstSplit_findSplit; reflexivity).
  assert (F2 : FirstSplit "??" " b ?? c" " b " " c")
    by (apply FirstSplit_findSplit; reflexivity).
  split; [auto|].
  exact (proj1 strToQP_detail_split _ _ _ _ _ H F1 F2).
Defined.

(** C3.  For a string that is not a separator and holds "::" more than
    once, the lambda [split] cuts at the first "::" only, the part after it
    keeping every further "::", and the "??" split works on that part.
    "Label::Part1::Part2??Detail" yields Label, Part1::Part2, Detail. *)
Theorem strToQP_first_label_delimiter :
  forall text l rest,
    startsWith text "-----" = false ->
    FirstSplit "::" text l rest ->
    ~ Absent "::" rest ->
    split2 text "::" = Normal [l; rest]
    /\ (forall d dt,
           FirstSplit "??" rest d dt ->
           _strToQP text = Normal (Item true (trim l) (trim d) (trim dt)))
    /\ (Absent "??" rest ->
        _strToQP text = Normal (Item true (trim l) (trim rest) ""))
    /\ _strToQP "Label::Part1::Part2??Detail"
       = Normal (Item true "Label" "Part1::Part2" "Detail").
Proof.
  intros text l rest H F1 _.
  apply FirstSplit_findSplit in F1.
  split; [|split; [|split; [|reflexivity]]].
  - rewrite split2_spec by discriminate. rewrite F1. reflexivity.
  - intros d dt F2. apply FirstSplit_findSplit in F2.
    rewrite strToQP_parsed by exact H. unfold parsed.
    rewrite F1, F2. reflexivity.
  - intros A. apply Absent_findSplit in A.
    rewrite strToQP_parsed by exact H. unfold parsed.
    rewrite F1, A. reflexivity.
Qed.

Lemma strToQP_first_label_delimiter_witness :
  split2 "Label::Part1::Part2??Detail" "::"
  = Normal ["Label"; "Part1::Part2??Detail"]
  /\ _strToQP "Label::Part1::Part2??Detail"
     = Normal (Item true (trim "Label") (trim "Part1::Part2")
                 (trim "Detail")).
Proof.
  assert (H : startsWith "Label::Part1::Part2??Detail" "-----" = false)
    by reflexivity.
  assert (F1 : FirstSplit "::" "Label::Part1::Part2??Detail"
                 "Label" "Part1::Part2??Detail")
    by (apply FirstSplit_findSplit; reflexivity).
  assert (N : ~ Absent "::" "Part1::Part2??Detail")
    by (intros A; apply Absent_findSplit in A; discriminate).
  assert (F2 : FirstSplit "??" "Part1::Part2??Detail"
                 "Part1::Part2" "Detail")
    by (apply FirstSplit_findSplit; reflexivity).
  pose proof (strToQP_first_label_delimiter _ _ _ H F1 N) as [S [D _]].
  split; [exact S | exact (D _ _ F2)].
Defined.

(** C7.  For a string that is not a separator, the label, the description
    and the detail of the entry neither start nor end with white space.
    "  Label  ::  Desc  " yields Label, Desc and the empty detail. *)
Theorem strToQP_fields_trimmed :
  (forall text,
      startsWith text "-----" = false ->
      exists l d dt,
        _strToQP text = Normal (Item true l d dt)
        /\ Trimmed l /\ Trimmed d /\ Trimmed dt)
  /\ _strToQP "  Label  ::  Desc  " = Normal (Item true "Label" "Desc" "").
Proof.
  split; [|reflexivity].
  intros text H. rewrite strToQP_parsed by exact H.
  destruct (parsed_Trimmed text) as (l & d & dt & E & T).
  exists l, d, dt. rewrite E. auto.
Qed.

Lemma strToQP_fields_trimmed_witness :
  startsWith " x :: y ?? z " "-----" = false
  /\ exists l d dt,
      _strToQP " x :: y ?? z " = Normal (Item true l d dt)
      /\ Trimmed l /\ Trimmed d /\ Trimmed dt.
Proof.
  split; [reflexivity|].
  apply (proj1 strToQP_fields_trimmed). reflexivity.
Defined.

(** C8.  [_strToQP] completes normally on every string: it returns a
    separator entry or an item with [alwaysShow] set; in an item the
    description is empty when the text has no "::" and the detail is empty
    when it has no "??".  The empty string yields the item whose three
    fields are empty. *)
Theorem strToQP_total :
  (forall text,
      (startsWith text "-----" = true
       /\ exists label, _strToQP text = Normal (Separator label "SEP"))
      \/ (startsWith text "-----" = false
          /\ exists l d dt,
              _strToQP text = Normal (Item true l d dt)
              /\ (Absent "::" text -> d = "")
              /\ (Absent "??" text -> dt = "")))
  /\ _strToQP "" = Normal (Item true "" "" "").
Proof.
  split; [|reflexivity].
  intros text. destruct (startsWith text "-----") eqn:H.
  - left. split; [reflexivity|].
    eexists. unfold _strToQP. rewrite H. reflexivity.
  - right. split; [reflexivity|].
    rewrite strToQP_parsed by exact H. unfold parsed.
    destruct (findSplit "::" text) as [[l rest]|] eqn:F1.
    + pose proof (findSplit_sound _ _ _ _ F1) as E.
      destruct (findSplit "??" rest) as [[d dt]|] eqn:F2;
        do 3 eexists; (split; [reflexivity|]); split; intros A.
      * exfalso. exact (A _ _ E).
      * exfalso. apply (Absent_tail _ _ _ _ _ A) in E.
        apply Absent_findSplit in E. congruence.
      * exfalso. exact (A _ _ E).
      * reflexivity.
    + destruct (findSplit "??" text) as [[d dt]|] eqn:F2;
        do 3 eexists; (split; [reflexivity|]); split; intros A;
        try reflexivity.
      exfalso. apply Absent_findSplit in A. congruence.
Qed.

(** *** More on the parser *)

Lemma trimStart_suffix (s : string) : exists a, s = a ++ trimStart s.
Proof.
  induction s as [|c s [a IH]]; [exists ""; reflexivity|].
  simpl. destruct (isWhiteSpace c).
  - exists (String c a). simpl. congruence.
  - exists "". reflexivity.
Qed.

Lemma trimEnd_prefix (s : string) : exists b, s = trimEnd s ++ b.
Proof.
  induction s as [|c s [b IH]]; [exists ""; reflexivity|].
  simpl. destruct (trimEnd s) as [|y t].
  - destruct (isWhiteSpace c).
    + exists (String c s). reflexivity.
    + exists b. simpl in *. congruence.
  - exists b. simpl in *. congruence.
Qed.

Lemma Absent_trim (sep s : string) : Absent sep s -> Absent sep (trim s).
Proof.
  intros H x y E. unfold trim in E.
  destruct (trimStart_suffix s) as [a Ea].
  destruct (trimEnd_prefix (trimStart s)) as [b Eb].
  apply (H (a ++ x) (y ++ b)).
  rewrite Ea at 1. rewrite Eb, E, !append_assoc. reflexivity.
Qed.

Lemma Absent_nil (sep : string) : sep <> "" -> Absent sep "".
Proof.
  intros H. apply Absent_findSplit. apply findSplit_nil, H.
Qed.

(** X8.  The lambda [split] of [_strToQP] returns one or two parts that
    give the string back when joined with the pattern; the first part does
    not hold the pattern, and there is one part exactly when the string
    does not hold it. *)
Theorem split2_parts :
  forall s pattern,
    pattern <> "" ->
    exists parts,
      split2 s pattern = Normal parts
      /\ join parts pattern = s
      /\ ((parts = [s] /\ Absent pattern s)
          \/ (exists a b, parts = [a; b] /\ Absent pattern a
                          /\ ~ Absent pattern s)).
Proof.
  intros s pattern Hp. rewrite split2_spec by exact Hp.
  destruct (findSplit pattern s) as [[a b]|] eqn:F.
  - exists [a; b]. split; [reflexivity|]. split.
    + symmetry. apply (findSplit_sound _ _ _ _ F).
    + right. exists a, b. split; [reflexivity|]. split.
      * apply Absent_findSplit. apply (findSplit_piece_free _ Hp _ _ _ F).
      * intros A. apply Absent_findSplit in A. congruence.
  - exists [s]. split; [reflexivity|]. split; [reflexivity|].
    left. split; [reflexivity|]. apply Absent_findSplit, F.
Qed.

Lemma split2_parts_witness :
  "::" <> ""
  /\ exists parts,
      split2 "a::b::c" "::" = Normal parts /\ join parts "::" = "a::b::c".
Proof.
  assert (H : "::" <> "") by discriminate.
  split; [exact H|].
  destruct (split2_parts "a::b::c" "::" H) as [parts [E [J _]]].
  exists parts. auto.
Defined.

(** X9.  In the item of a string that is not a separator, the label does
    not hold "::" and the description does not hold "??". *)
Theorem strToQP_delimiters_consumed :
  forall text l d dt,
    startsWith text "-----" = false ->
    _strToQP text = Normal (Item true l d dt) ->
    Absent "::" l /\ Absent "??" d.
Proof.
  intros text l d dt H. rewrite strToQP_parsed by exact H. unfold parsed.
  assert (N1 : "::" <> "") by discriminate.
  assert (N2 : "??" <> "") by discriminate.
  destruct (findSplit "::" text) as [[p rest]|] eqn:F1.
  - pose proof (findSplit_piece_free _ N1 _ _ _ F1) as A1.
    apply Absent_findSplit in A1.
    destruct (findSplit "??" rest) as [[q r]|] eqn:F2;
      intros E; injection E as <- <- <-;
      (split; [apply Absent_trim, A1|]); apply Absent_trim.
    + apply Absent_findSplit. apply (findSplit_piece_free _ N2 _ _ _ F2).
    + apply Absent_findSplit, F2.
  - apply Absent_findSplit in F1.
    destruct (findSplit "??" text) as [[q r]|];
      intros E; injection E as <- <- <-;
      (split; [apply Absent_trim, F1 | apply Absent_nil, N2]).
Qed.

Lemma strToQP_delimiters_consumed_witness :
  startsWith "a::b::c??d??e" "-----" = false
  /\ _strToQP "a::b::c??d??e" = Normal (Item true "a" "b::c" "d??e")
  /\ Absent "::" "a" /\ Absent "??" "b::c".
Proof.
  assert (H : startsWith "a::b::c??d??e" "-----" = false) by reflexivity.
  assert (E : _strToQP "a::b::c??d??e" = Normal (Item true "a" "b::c" "d??e"))
    by reflexivity.
  split; [exact H|]. split; [exact E|].
  exact (strToQP_delimiters_consumed _ _ _ _ H E).
Defined.

Lemma Absent_suffix (sep a b : string) : Absent sep (a ++ b) -> Absent sep b.
Proof.
  intros H x y ->. apply (H (a ++ x) y). rewrite append_assoc. reflexivity.
Qed.

(** A separator of one code unit twice is first found right after a text
    that, followed by the code unit, does not hold the separator. *)
Lemma findSplit_doubled (x : ascii) (b : string) :
  forall a,
    Absent (String x (String x "")) (a ++ String x "") ->
    findSplit (String x (String x "")) (a ++ String x (String x "") ++ b)
    = Some (a, b).
Proof.
  induction a as [|c a IH]; intros A.
  - rewrite findSplit_eq.
    change ("" ++ String x (String x "") ++ b)
      with (String x (String x "") ++ b).
    rewrite prefix_append, drop_append. reflexivity.
  - rewrite findSplit_eq.
    destruct (prefix (String x (String x ""))
                (String c a ++ String x (String x "") ++ b)) eqn:P.
    + exfalso. apply prefix_split in P. simpl in P.
      injection P as -> P.
      destruct a as [|d a]; simpl in P.
      * apply (A "" ""). reflexivity.
      * injection P as ->. apply (A "" (a ++ String x "")). reflexivity.
    + simpl.
      change (a ++ String x (String x b))
        with (a ++ String x (String x "") ++ b).
      rewrite IH; [reflexivity|].
      apply (Absent_suffix _ (String c "")). exact A.
Qed.

(** X10.  Writing a label, "::", a description, "??" and a detail, all
    three trimmed, the label free of "::" also when ":" follows it and the
    description free of "??" also when "?" follows it, gives a string that
    [_strToQP] parses back into the three fields. *)
Theorem strToQP_round_trip :
  forall label description detail,
    Trimmed label -> Trimmed description -> Trimmed detail ->
    Absent "::" (label ++ ":") ->
    Absent "??" (description ++ "?") ->
    startsWith (label ++ "::" ++ description ++ "??" ++ detail) "-----"
    = false ->
    _strToQP (label ++ "::" ++ description ++ "??" ++ detail)
    = Normal (Item true label description detail).
Proof.
  intros label description detail Tl Td Tdt A1 A2 H.
  rewrite strToQP_parsed by exact H. unfold parsed.
  rewrite (findSplit_doubled ":" _ label A1).
  rewrite (findSplit_doubled "?" _ description A2).
  rewrite !trim_fixed by assumption. reflexivity.
Qed.

Lemma strToQP_round_trip_witness :
  (Trimmed "Open file" /\ Trimmed "from disk" /\ Trimmed "Ctrl+O"
   /\ Absent "::" ("Open file" ++ ":") /\ Absent "??" ("from disk" ++ "?"))
  /\ _strToQP "Open file::from disk??Ctrl+O"
     = Normal (Item true "Open file" "from disk" "Ctrl+O").
Proof.
  assert (T1 : Trimmed "Open file")
    by exact (trim_Trimmed "Open file").
  assert (T2 : Trimmed "from disk")
    by exact (trim_Trimmed "from disk").
  assert (T3 : Trimmed "Ctrl+O")
    by exact (trim_Trimmed "Ctrl+O").
  assert (A1 : Absent "::" ("Open file" ++ ":"))
    by (apply Absent_findSplit; reflexivity).
  assert (A2 : Absent "??" ("from disk" ++ "?"))
    by (apply Absent_findSplit; reflexivity).
  split; [auto 6|].
  apply (strToQP_round_trip "Open file" "from disk" "Ctrl+O"
           T1 T2 T3 A1 A2).
  reflexivity.
Defined.

End QuickPickFacts.

(** * DATA UTILS: [camelize] and [withinCharLimit] *)

Module DataUtilsFacts.
Import JS Props JSFacts QuickPickFacts DataUtils.

Lemma AllChars_trimStart (P : ascii -> Prop) (s : string) :
  AllChars P s -> AllChars P (trimStart s).
Proof.
  unfold AllChars. induction s as [|c s IH]; simpl; intros H; [exact H|].
  destruct (isWhiteSpace c); [|exact H].
  apply IH. inversion H; assumption.
Qed.

Lemma AllChars_trimEnd (P : ascii -> Prop) (s : string) :
  AllChars P s -> AllChars P (trimEnd s).
Proof.
  unfold AllChars. induction s as [|c s IH]; simpl; intros H; [exact H|].
  inversion H as [|? ? Hc Hs]; subst. specialize (IH Hs).
  destruct (trimEnd s) as [|y t].
  - destruct (isWhiteSpace c); simpl; auto.
  - simpl. constructor; assumption.
Qed.

Lemma AllChars_trim (P : ascii -> Prop) (s : string) :
  AllChars P s -> AllChars P (trim s).
Proof. intros H. apply AllChars_trimEnd, AllChars_trimStart, H. Qed.

(** A text made of separators only splits into empty pieces. *)
Lemma splitRunsFrom_separators (C : ascii -> bool) (s : string) :
  AllChars (fun c => C c = true) s ->
  forall inRun, Forall (fun piece => piece = "") (splitRunsFrom C inRun s).
Proof.
  unfold AllChars. induction s as [|c s IH]; simpl; intros H inRun.
  - constructor; [reflexivity | constructor].
  - inversion H as [|? ? Hc Hs]; subst. rewrite Hc.
    destruct inRun; [apply IH, Hs|].
    constructor; [reflexivity | apply IH, Hs].
Qed.

Lemma filter_truthy_empty (l : list string) :
  Forall (fun piece => piece = "") l -> filter truthy l = [].
Proof.
  induction 1 as [|x l Hx _ IH]; simpl; [reflexivity|].
  subst x. exact IH.
Qed.

(** C9.  [camelize] throws a TypeError on every text without a letter or a
    digit, the empty text included: the list of words is empty and
    [words[0]] is [undefined]. *)
Theorem camelize_throws_without_alnum :
  forall text keepOuterUnderscores,
    AllChars (fun c => isAlnum c = false) text ->
    camelize text keepOuterUnderscores = TypeError.
Proof.
  intros text keep H. unfold camelize.
  rewrite filter_truthy_empty.
  - destruct keep; reflexivity.
  - apply splitRunsFrom_separators, AllChars_trim.
    unfold AllChars in *. eapply Forall_impl; [|exact H].
    intros c Hc. simpl. rewrite Hc. reflexivity.
Qed.

Lemma camelize_throws_without_alnum_witness :
  AllChars (fun c => isAlnum c = false) "__ - __"
  /\ camelize "__ - __" true = TypeError
  /\ camelize "" false = TypeError.
Proof.
  split; [repeat constructor|].
  split; apply camelize_throws_without_alnum; repeat constructor.
Defined.

(** C10.  [withinCharLimit] loses words.  A word that does not fit on the
    current line flushes the line and is dropped, the next line starting
    from the prefix alone; so "bbb", a word of "aaa bbb", occurs in no line
    of the output for the limit 4. *)
Theorem withinCharLimit_drops_word :
  (forall limit prefix lines currentLine word,
      (limit < Z.of_nat (length currentLine + length word))%Z ->
      addWord limit prefix (lines, currentLine) word
      = ((lines ++ [trimEnd currentLine])%list, prefix))
  /\ (exists text limit word lines out,
         In word (splitRuns isWhiteSpace text)
         /\ word <> ""
         /\ withinCharLimit text limit "" true = inl lines
         /\ (forall line, In line lines -> Absent word line)
         /\ withinCharLimit text limit "" false = inr out
         /\ Absent word out).
Proof.
  split.
  - intros limit prefix lines currentLine word H. unfold addWord.
    apply Z.ltb_lt in H. rewrite H. reflexivity.
  - exists "aaa bbb", 4%Z, "bbb", ["aaa"], "aaa".
    split; [simpl; auto|].
    split; [discriminate|].
    split; [reflexivity|].
    split; [|split; [reflexivity | apply Absent_findSplit; reflexivity]].
    intros line [<-|[]]. apply Absent_findSplit. reflexivity.
Qed.

Lemma withinCharLimit_drops_word_witness :
  (4 < Z.of_nat (length "aaa " + length "bbb"))%Z
  /\ addWord 4 "" ([], "aaa ") "bbb" = (["aaa"], "").
Proof.
  split; [reflexivity|].
  apply (proj1 withinCharLimit_drops_word). reflexivity.
Defined.

(** *** Code units, classes and case *)

Lemma alnum_not_space (c : ascii) :
  isAlnum c = true -> isWhiteSpace c = false.
Proof.
  destruct c as [[] [] [] [] [] [] [] []]; vm_compute; congruence.
Qed.

Lemma alnum_not_underscore (c : ascii) :
  isAlnum c = true -> c <> "_"%char.
Proof. intros H ->. vm_compute in H. discriminate. Qed.

Lemma underscore_not_alnum : isAlnum "_" = false.
Proof. reflexivity. Qed.

Lemma isAlnum_lowerChar (c : ascii) :
  isAlnum c = true -> isAlnum (lowerChar c) = true.
Proof.
  destruct c as [[] [] [] [] [] [] [] []]; vm_compute; congruence.
Qed.

Lemma isAlnum_upperChar (c : ascii) :
  isAlnum c = true -> isAlnum (upperChar c) = true.
Proof.
  destruct c as [[] [] [] [] [] [] [] []]; vm_compute; congruence.
Qed.

Lemma lowerChar_upperChar (c : ascii) : lowerChar (upperChar c) = lowerChar c.
Proof. destruct c as [[] [] [] [] [] [] [] []]; reflexivity. Qed.

Lemma lowerChar_lowerChar (c : ascii) : lowerChar (lowerChar c) = lowerChar c.
Proof. destruct c as [[] [] [] [] [] [] [] []]; reflexivity. Qed.

Lemma chars_append (a b : string) :
  list_ascii_of_string (a ++ b)
  = (list_ascii_of_string a ++ list_ascii_of_string b)%list.
Proof. induction a as [|c a IH]; simpl; congruence. Qed.

Lemma AllChars_append (P : ascii -> Prop) (a b : string) :
  AllChars P (a ++ b) <-> AllChars P a /\ AllChars P b.
Proof. unfold AllChars. rewrite chars_append. apply Forall_app. Qed.

Lemma AllChars_mapChars (P : ascii -> Prop) (f : ascii -> ascii) (s : string) :
  (forall c, P c -> P (f c)) -> AllChars P s -> AllChars P (mapChars f s).
Proof.
  intros Hf. unfold AllChars.
  induction s as [|c s IH]; simpl; intros H; [exact H|].
  inversion H; subst. constructor; auto.
Qed.

Lemma mapChars_append (f : ascii -> ascii) (a b : string) :
  mapChars f (a ++ b) = mapChars f a ++ mapChars f b.
Proof. induction a as [|c a IH]; simpl; congruence. Qed.

Lemma mapChars_compose (f g h : ascii -> ascii) (s : string) :
  (forall c, f (g c) = h c) -> mapChars f (mapChars g s) = mapChars h s.
Proof. intros H. induction s as [|c s IH]; simpl; congruence. Qed.

Lemma charAt0_sliceFrom (w : string) : charAt0 w ++ sliceFrom w 1 = w.
Proof. destruct w; reflexivity. Qed.

Lemma toLowerCase_capitalize (w : string) :
  toLowerCase (capitalize w) = toLowerCase w.
Proof.
  unfold capitalize, toLowerCase, toUpperCase.
  rewrite mapChars_append.
  rewrite (mapChars_compose lowerChar upperChar lowerChar)
    by apply lowerChar_upperChar.
  rewrite (mapChars_compose lowerChar lowerChar lowerChar)
    by apply lowerChar_lowerChar.
  rewrite <- mapChars_append, charAt0_sliceFrom. reflexivity.
Qed.

Lemma AllChars_capitalize (w : string) :
  AllChars (fun c => isAlnum c = true) w ->
  AllChars (fun c => isAlnum c = true) (capitalize w).
Proof.
  intros H. rewrite <- (charAt0_sliceFrom w) in H.
  apply AllChars_append in H. destruct H as [H0 H1].
  unfold capitalize. apply AllChars_append. split.
  - apply AllChars_mapChars; [apply isAlnum_upperChar | exact H0].
  - apply AllChars_mapChars; [apply isAlnum_lowerChar | exact H1].
Qed.

(** *** Words *)

Lemma join_empty_cons (x : string) (l : list string) :
  join (x :: l) "" = x ++ join l "".
Proof.
  unfold join. destruct l as [|y l]; simpl; [|reflexivity].
  symmetry. apply append_nil_r.
Qed.

Lemma AllChars_join_empty (P : ascii -> Prop) (l : list string) :
  Forall (AllChars P) l -> AllChars P (join l "").
Proof.
  induction 1 as [|x l Hx _ IH]; [constructor|].
  rewrite join_empty_cons. apply AllChars_append. auto.
Qed.

Lemma toLowerCase_join_capitalize (l : list string) :
  toLowerCase (join (map capitalize l) "")
  = toLowerCase (join l "").
Proof.
  induction l as [|x l IH]; [reflexivity|].
  simpl map. rewrite !join_empty_cons. unfold toLowerCase in *.
  rewrite !mapChars_append, IH.
  f_equal. apply toLowerCase_capitalize.
Qed.

(** The pieces of [split(/[C]+/)] hold no code unit of the class. *)
Lemma splitRunsFrom_pieces (C : ascii -> bool) (s : string) :
  forall inRun,
    Forall (AllChars (fun c => C c = false)) (splitRunsFrom C inRun s).
Proof.
  induction s as [|c s IH]; intros inRun; simpl.
  - repeat constructor.
  - destruct (C c) eqn:Cc.
    + destruct inRun; [apply IH|].
      constructor; [constructor | apply IH].
    + specialize (IH false).
      destruct (splitRunsFrom C false s) as [|piece rest].
      * repeat constructor. exact Cc.
      * inversion IH; subst. constructor; [|assumption].
        constructor; assumption.
Qed.

(** A text without a code unit of the class is one piece. *)
Lemma splitRunsFrom_one_piece (C : ascii -> bool) (s : string) :
  AllChars (fun c => C c = false) s ->
  forall inRun, splitRunsFrom C inRun s = [s].
Proof.
  unfold AllChars. induction s as [|c s IH]; simpl; intros H inRun.
  - reflexivity.
  - inversion H as [|? ? Hc Hs]; subst. rewrite Hc, (IH Hs). reflexivity.
Qed.

(** A code unit outside the class gives a piece that is not empty. *)
Lemma splitRunsFrom_word (C : ascii -> bool) (s : string) :
  Exists (fun c => C c = false) (list_ascii_of_string s) ->
  forall inRun, Exists (fun piece => piece <> "") (splitRunsFrom C inRun s).
Proof.
  induction s as [|c s IH]; simpl; intros H inRun.
  - inversion H.
  - destruct (C c) eqn:Cc.
    + assert (Hs : Exists (fun c => C c = false) (list_ascii_of_string s))
        by (inversion H; subst; [congruence | assumption]).
      destruct inRun; [apply IH, Hs|].
      apply Exists_cons_tl, IH, Hs.
    + destruct (splitRunsFrom C false s); apply Exists_cons_hd; discriminate.
Qed.

Lemma filter_truthy_word (l : list string) :
  Exists (fun piece => piece <> "") l -> filter truthy l <> [].
Proof.
  induction 1 as [x l Hx | x l _ IH]; simpl.
  - destruct x; [congruence | discriminate].
  - destruct (truthy x); [discriminate | exact IH].
Qed.

Lemma Exists_trimStart (P : ascii -> Prop) (s : string) :
  (forall c, P c -> isWhiteSpace c = false) ->
  Exists P (list_ascii_of_string s) ->
  Exists P (list_ascii_of_string (trimStart s)).
Proof.
  intros HP. induction s as [|c s IH]; simpl; intros H; [exact H|].
  destruct (isWhiteSpace c) eqn:W; [|exact H].
  apply IH. inversion H; subst; [|assumption].
  rewrite HP in W by assumption. discriminate.
Qed.

Lemma Exists_trimEnd (P : ascii -> Prop) (s : string) :
  (forall c, P c -> isWhiteSpace c = false) ->
  Exists P (list_ascii_of_string s) ->
  Exists P (list_ascii_of_string (trimEnd s)).
Proof.
  intros HP. induction s as [|c s IH]; simpl; intros H; [exact H|].
  inversion H as [? ? Hc | ? ? Hs]; subst.
  - destruct (trimEnd s).
    + rewrite (HP c Hc). simpl. apply Exists_cons_hd. exact Hc.
    + simpl. apply Exists_cons_hd. exact Hc.
  - specialize (IH Hs). destruct (trimEnd s) as [|y t]; [inversion IH|].
    simpl. apply Exists_cons_tl. exact IH.
Qed.

Lemma filter_truthy_pieces (P : ascii -> Prop) (l : list string) :
  Forall (AllChars P) l -> Forall (AllChars P) (filter truthy l).
Proof.
  intros H. apply Forall_forall. intros x Hx.
  apply filter_In in Hx. destruct Hx as [Hx _].
  exact (proj1 (Forall_forall _ _) H x Hx).
Qed.

(** The words of [camelize] and [pascalize] are made of letters and
    digits. *)
Lemma words_alnum (text : string) :
  Forall (AllChars (fun c => isAlnum c = true))
    (filter truthy (splitRuns (fun c => negb (isAlnum c)) (trim text))).
Proof.
  apply filter_truthy_pieces. unfold splitRuns.
  eapply Forall_impl; [|apply splitRunsFrom_pieces].
  intros piece H. unfold AllChars in *.
  eapply Forall_impl; [|exact H].
  intros c Hc. simpl in Hc. apply negb_false_iff in Hc. exact Hc.
Qed.

(** *** Underscores *)

Lemma leadingUnderscores_all (s : string) :
  AllChars (fun c => c = "_"%char) s -> leadingUnderscores s = s.
Proof.
  unfold AllChars. induction s as [|c s IH]; simpl; intros H; [reflexivity|].
  inversion H; subst. simpl. f_equal. auto.
Qed.

Lemma trailingUnderscores_all (s : string) :
  AllChars (fun c => c = "_"%char) s -> trailingUnderscores s = s.
Proof.
  unfold AllChars. induction s as [|c s IH]; simpl; intros H; [reflexivity|].
  inversion H; subst. rewrite IH by assumption.
  rewrite String.eqb_refl. reflexivity.
Qed.

Lemma trailingUnderscores_alnum (s : string) :
  AllChars (fun c => isAlnum c = true) s -> trailingUnderscores s = "".
Proof.
  unfold AllChars. induction s as [|c s IH]; simpl; intros H; [reflexivity|].
  inversion H as [|? ? Hc Hs]; subst. rewrite (IH Hs).
  destruct (Ascii.eqb_spec c "_") as [->|_]; [discriminate Hc|].
  reflexivity.
Qed.

Lemma leadingUnderscores_alnum (s : string) :
  AllChars (fun c => isAlnum c = true) s -> leadingUnderscores s = "".
Proof.
  unfold AllChars. destruct s as [|c s]; intros H; [reflexivity|].
  inversion H as [|? ? Hc Hs]; subst.
  destruct c as [[] [] [] [] [] [] [] []]; try reflexivity.
  discriminate Hc.
Qed.

Lemma underscores_no_words (text : string) :
  AllChars (fun c => isAlnum c = false) text ->
  filter truthy (splitRuns (fun c => negb (isAlnum c)) (trim text)) = [].
Proof.
  intros H. apply filter_truthy_empty.
  apply splitRunsFrom_separators, AllChars_trim.
  unfold AllChars in *. eapply Forall_impl; [|exact H].
  intros c Hc. simpl. rewrite Hc. reflexivity.
Qed.

Lemma alnum_Trimmed (s : string) :
  AllChars (fun c => isAlnum c = true) s -> Trimmed s.
Proof.
  intros H. split.
  - intros c r ->. unfold AllChars in H. simpl in H. inversion H; subst.
    apply alnum_not_space. assumption.
  - intros r c ->. apply AllChars_append in H. destruct H as [_ H].
    unfold AllChars in H. simpl in H. inversion H; subst.
    apply alnum_not_space. assumption.
Qed.

Lemma alnum_or_none (l : list ascii) :
  Exists (fun c => isAlnum c = true) l
  \/ Forall (fun c => isAlnum c = false) l.
Proof.
  induction l as [|c l [IH|IH]]; [right; constructor | left | ].
  - apply Exists_cons_tl, IH.
  - destruct (isAlnum c) eqn:A; [left | right].
    + apply Exists_cons_hd, A.
    + constructor; assumption.
Qed.

Lemma underscores_matched (text : string) :
  match matchStartUnderscores text with Some m => m | None => "" end
  = leadingUnderscores text
  /\ match matchEndUnderscores text with Some m => m | None => "" end
     = trailingUnderscores text.
Proof.
  unfold matchStartUnderscores, matchEndUnderscores.
  destruct (leadingUnderscores text), (trailingUnderscores text); auto.
Qed.

(** X1.  [camelize] returns a string exactly when the text holds a letter
    or a digit; otherwise it throws. *)
Theorem camelize_returns_iff :
  forall text keepOuterUnderscores,
    (exists r, camelize text keepOuterUnderscores = Normal r)
    <-> Exists (fun c => isAlnum c = true) (list_ascii_of_string text).
Proof.
  intros text keep. split.
  - intros [r Hr].
    destruct (alnum_or_none (list_ascii_of_string text)) as [E|F];
      [exact E|].
    exfalso. unfold camelize in Hr.
    rewrite (underscores_no_words text F) in Hr.
    destruct keep; discriminate Hr.
  - intros E.
    assert (W : filter truthy
                  (splitRuns (fun c => negb (isAlnum c)) (trim text)) <> []).
    { apply filter_truthy_word, splitRunsFrom_word.
      apply Exists_impl with (P := fun c => isAlnum c = true);
        [intros c Hc; simpl; rewrite Hc; reflexivity|].
      apply Exists_trimEnd; [apply alnum_not_space|].
      apply Exists_trimStart; [apply alnum_not_space | exact E]. }
    unfold camelize.
    destruct (filter truthy
                (splitRuns (fun c => negb (isAlnum c)) (trim text)))
      as [|w0 ws]; [congruence|].
    destruct keep; simpl; eauto.
Qed.

(** X2.  Without the outer underscores, the results of [pascalize] and of
    [camelize] are made of letters and digits only. *)
Theorem casing_keeps_alnum_only :
  (forall text,
      AllChars (fun c => isAlnum c = true) (pascalize text false))
  /\ (forall text r,
         camelize text false = Normal r ->
         AllChars (fun c => isAlnum c = true) r).
Proof.
  split.
  - intros text. unfold pascalize. simpl. rewrite append_nil_r.
    apply AllChars_join_empty.
    apply Forall_forall. intros x Hx. apply in_map_iff in Hx.
    destruct Hx as [w [<- Hw]]. apply AllChars_capitalize.
    exact (proj1 (Forall_forall _ _) (words_alnum text) w Hw).
  - intros text r. unfold camelize.
    pose proof (words_alnum text) as W.
    destruct (filter truthy
                (splitRuns (fun c => negb (isAlnum c)) (trim text)))
      as [|w0 ws]; [discriminate|].
    simpl. intros H. injection H as <-. rewrite append_nil_r.
    inversion W as [|? ? H0 Hs]; subst.
    apply AllChars_append. split.
    + apply AllChars_mapChars; [apply isAlnum_lowerChar | exact H0].
    + apply AllChars_join_empty.
      apply Forall_forall. intros x Hx. apply in_map_iff in Hx.
      destruct Hx as [w [<- Hw]]. apply AllChars_capitalize.
      exact (proj1 (Forall_forall _ _) Hs w Hw).
Qed.

Lemma casing_keeps_alnum_only_witness :
  camelize "my_big  value-2" false = Normal "myBigValue2"
  /\ AllChars (fun c => isAlnum c = true) "myBigValue2".
Proof.
  split; [reflexivity|].
  apply (proj2 casing_keeps_alnum_only "my_big  value-2"). reflexivity.
Defined.

(** X3.  When [camelize] returns, its result and the result of [pascalize]
    are the same text up to the case of the letters. *)
Theorem camelize_pascalize_same_letters :
  forall text keepOuterUnderscores r,
    camelize text keepOuterUnderscores = Normal r ->
    toLowerCase r = toLowerCase (pascalize text keepOuterUnderscores).
Proof.
  intros text keep r. unfold camelize, pascalize.
  destruct (if keep then _ else _) as [su eu].
  destruct (filter truthy
              (splitRuns (fun c => negb (isAlnum c)) (trim text)))
    as [|w0 ws]; [discriminate|].
  cbn [bind at_ nth_error skipn map]. intros H. injection H as <-.
  rewrite join_empty_cons. unfold toLowerCase.
  rewrite !mapChars_append.
  rewrite (mapChars_compose lowerChar lowerChar lowerChar)
    by apply lowerChar_lowerChar.
  f_equal. rewrite append_assoc. f_equal.
  symmetry. apply toLowerCase_capitalize.
Qed.

Lemma camelize_pascalize_same_letters_witness :
  camelize "_my big_value" true = Normal "_myBigValue"
  /\ toLowerCase "_myBigValue" = toLowerCase (pascalize "_my big_value" true).
Proof.
  split; [reflexivity|].
  apply camelize_pascalize_same_letters. reflexivity.
Defined.

(** X4.  On a text made of letters and digits only, which is one word,
    [camelize] returns the text in lower case and [pascalize] the text with
    its first letter in upper case and the rest in lower case: the capitals
    inside a word are lost. *)
Theorem casing_of_one_word :
  forall text keepOuterUnderscores,
    AllChars (fun c => isAlnum c = true) text ->
    text <> "" ->
    camelize text keepOuterUnderscores = Normal (toLowerCase text)
    /\ pascalize text keepOuterUnderscores = capitalize text.
Proof.
  intros text keep H Hne.
  assert (W : filter truthy
                (splitRuns (fun c => negb (isAlnum c)) (trim text))
              = [text]).
  { rewrite (trim_fixed text (alnum_Trimmed text H)).
    unfold splitRuns. rewrite splitRunsFrom_one_piece.
    - simpl. destruct text; [congruence | reflexivity].
    - unfold AllChars in *. eapply Forall_impl; [|exact H].
      intros c Hc. simpl. rewrite Hc. reflexivity. }
  destruct (underscores_matched text) as [Es Ee].
  rewrite (leadingUnderscores_alnum text H) in Es.
  rewrite (trailingUnderscores_alnum text H) in Ee.
  unfold camelize, pascalize. rewrite W.
  destruct keep; rewrite ?Es, ?Ee; simpl; rewrite !append_nil_r; auto.
Qed.

Lemma casing_of_one_word_witness :
  (AllChars (fun c => isAlnum c = true) "fooBar" /\ "fooBar" <> "")
  /\ camelize "fooBar" false = Normal "foobar"
  /\ pascalize "fooBar" false = "Foobar".
Proof.
  assert (H : AllChars (fun c => isAlnum c = true) "fooBar")
    by (repeat constructor).
  assert (N : "fooBar" <> "") by discriminate.
  split; [auto|].
  exact (casing_of_one_word "fooBar" false H N).
Defined.

(** X5.  On a text without a letter or a digit [pascalize] returns the
    empty string, or with [keepOuterUnderscores] the leading underscores
    followed by the trailing ones; a text of underscores only comes back
    twice. *)
Theorem pascalize_without_alnum :
  forall text,
    AllChars (fun c => isAlnum c = false) text ->
    pascalize text false = ""
    /\ pascalize text true
       = leadingUnderscores text ++ trailingUnderscores text
    /\ (AllChars (fun c => c = "_"%char) text ->
        pascalize text true = text ++ text).
Proof.
  intros text H.
  destruct (underscores_matched text) as [Es Ee].
  assert (P : pascalize text true
              = leadingUnderscores text ++ trailingUnderscores text).
  { unfold pascalize. rewrite (underscores_no_words text H), Es, Ee.
    reflexivity. }
  split; [|split; [exact P|]].
  - unfold pascalize. rewrite (underscores_no_words text H). reflexivity.
  - intros U. rewrite P, (leadingUnderscores_all text U),
      (trailingUnderscores_all text U). reflexivity.
Qed.

Lemma pascalize_without_alnum_witness :
  AllChars (fun c => isAlnum c = false) "___"
  /\ AllChars (fun c => c = "_"%char) "___"
  /\ pascalize "___" true = "______".
Proof.
  assert (H : AllChars (fun c => isAlnum c = false) "___")
    by (repeat constructor).
  assert (U : AllChars (fun c => c = "_"%char) "___")
    by (repeat constructor).
  split; [exact H|]. split; [exact U|].
  exact (proj2 (proj2 (pascalize_without_alnum "___" H)) U).
Defined.

(** *** The lines of [withinCharLimit] *)

Lemma trimEnd_length (s : string) : length (trimEnd s) <= length s.
Proof.
  induction s as [|c s IH]; simpl; [lia|].
  destruct (trimEnd s); [destruct (isWhiteSpace c)|]; simpl in *; lia.
Qed.

Lemma trimEnd_space (r : string) (c : ascii) :
  isWhiteSpace c = true -> trimEnd (r ++ String c "") = trimEnd r.
Proof.
  intros W. induction r as [|x r IH]; simpl.
  - rewrite W. reflexivity.
  - rewrite IH. reflexivity.
Qed.

Lemma splitRunsFrom_not_nil (C : ascii -> bool) (s : string) :
  forall inRun, splitRunsFrom C inRun s <> [].
Proof.
  induction s as [|c s IH]; intros inRun; simpl; [discriminate|].
  destruct (C c).
  - destruct inRun; [apply IH | discriminate].
  - destruct (splitRunsFrom C false s); discriminate.
Qed.

(** The pieces and one code unit after each of them are not longer than
    the text and one code unit. *)
Lemma splitRunsFrom_lengths (C : ascii -> bool) (s : string) :
  forall inRun,
    list_sum (map (fun w => S (length w)) (splitRunsFrom C inRun s))
    <= S (length s).
Proof.
  induction s as [|c s IH]; intros inRun; simpl; [lia|].
  destruct (C c).
  - destruct inRun; [specialize (IH true); lia|].
    specialize (IH true). simpl. lia.
  - specialize (IH false).
    destruct (splitRunsFrom C false s) as [|piece rest]; simpl in *; lia.
Qed.

(** A line that holds at most [limit] code units and does not end with
    white space. *)
Lemma line_fits (limit : Z) (prefix currentLine : string) :
  (Z.of_nat (length prefix) <= limit)%Z ->
  currentLine = prefix
  \/ (exists r, currentLine = r ++ " "
                /\ (Z.of_nat (length currentLine) <= limit + 1)%Z) ->
  (Z.of_nat (length (trimEnd currentLine)) <= limit)%Z
  /\ (forall r c, trimEnd currentLine = r ++ String c "" ->
                  isWhiteSpace c = false).
Proof.
  intros Hp H. split; [|apply trimEnd_last].
  destruct H as [->|[r [-> L]]].
  - pose proof (trimEnd_length prefix). lia.
  - rewrite trimEnd_space by reflexivity.
    pose proof (trimEnd_length r). rewrite length_append in L.
    simpl in L. lia.
Qed.

Lemma addWord_eq (limit : Z) (prefix : string) (lines : list string)
  (currentLine word : string) :
  addWord limit prefix (lines, currentLine) word =
    if (limit <? Z.of_nat (length currentLine + length word))%Z then
      ((lines ++ [trimEnd currentLine])%list, prefix)
    else
      (lines, currentLine ++ word ++ " ").
Proof. reflexivity. Qed.

Lemma addWord_fits (limit : Z) (prefix : string) (words : list string) :
  (Z.of_nat (length prefix) <= limit)%Z ->
  forall lines currentLine,
    Forall (fun l => (Z.of_nat (length l) <= limit)%Z
                     /\ (forall r c, l = r ++ String c "" ->
                                     isWhiteSpace c = false)) lines ->
    currentLine = prefix
    \/ (exists r, currentLine = r ++ " "
                  /\ (Z.of_nat (length currentLine) <= limit + 1)%Z) ->
    let '(lines', currentLine') :=
      fold_left (addWord limit prefix) words (lines, currentLine) in
    Forall (fun l => (Z.of_nat (length l) <= limit)%Z
                     /\ (forall r c, l = r ++ String c "" ->
                                     isWhiteSpace c = false)) lines'
    /\ (currentLine' = prefix
        \/ (exists r, currentLine' = r ++ " "
                      /\ (Z.of_nat (length currentLine') <= limit + 1)%Z)).
Proof.
  intros Hp. induction words as [|w words IH]; intros lines cur Hl Hc.
  - simpl. auto.
  - cbn [fold_left]. rewrite addWord_eq.
    destruct (limit <? Z.of_nat (length cur + length w))%Z eqn:O.
    + apply IH; [|left; reflexivity].
      apply Forall_app. split; [exact Hl|].
      constructor; [|constructor]. apply (line_fits limit prefix); assumption.
    + apply IH; [exact Hl|]. right. apply Z.ltb_ge in O.
      exists (cur ++ w). split; [symmetry; apply append_assoc|].
      rewrite !length_append. simpl. lia.
Qed.

(** X6.  With a prefix of at most [limit] code units, every line that
    [withinCharLimit] returns holds at most [limit] code units and does not
    end with white space; so for [within80Chars] and the limit 80. *)
Theorem withinCharLimit_lines_fit :
  (forall text limit prefix lines,
      (Z.of_nat (length prefix) <= limit)%Z ->
      withinCharLimit text limit prefix true = inl lines ->
      Forall (fun l => (Z.of_nat (length l) <= limit)%Z
                       /\ (forall r c, l = r ++ String c "" ->
                                       isWhiteSpace c = false)) lines)
  /\ (forall text prefix lines,
         length prefix <= 80 ->
         within80Chars text prefix true = inl lines ->
         Forall (fun l => length l <= 80
                          /\ (forall r c, l = r ++ String c "" ->
                                          isWhiteSpace c = false)) lines).
Proof.
  assert (G : forall text limit prefix lines,
             (Z.of_nat (length prefix) <= limit)%Z ->
             withinCharLimit text limit prefix true = inl lines ->
             Forall (fun l => (Z.of_nat (length l) <= limit)%Z
                              /\ (forall r c, l = r ++ String c "" ->
                                              isWhiteSpace c = false)) lines).
  { intros text limit prefix lines Hp. unfold withinCharLimit.
    pose proof (addWord_fits limit prefix (splitRuns isWhiteSpace text) Hp
                  [] prefix (Forall_nil _) (or_introl eq_refl)) as H.
    destruct (fold_left (addWord limit prefix) (splitRuns isWhiteSpace text)
                ([], prefix)) as [ls cur].
    destruct H as [Hl Hc]. intros E.
    destruct (truthy cur); injection E as <-; [|exact Hl].
    apply Forall_app. split; [exact Hl|].
    constructor; [|constructor]. apply (line_fits limit prefix); assumption. }
  split; [exact G|].
  intros text prefix lines Hp E.
  assert (Hz : (Z.of_nat (length prefix) <= 80)%Z) by lia.
  eapply Forall_impl; [|exact (G text 80%Z prefix lines Hz E)].
  intros l [Hl Hw]. split; [lia | exact Hw].
Qed.

Lemma withinCharLimit_lines_fit_witness :
  (Z.of_nat (length "// ") <= 12)%Z
  /\ withinCharLimit "one two  three four" 12 "// " true
     = inl ["// one two"; "// four"]
  /\ Forall (fun l => (Z.of_nat (length l) <= 12)%Z
                      /\ (forall r c, l = r ++ String c "" ->
                                      isWhiteSpace c = false))
       ["// one two"; "// four"].
Proof.
  assert (Hp : (Z.of_nat (length "// ") <= 12)%Z) by (simpl; lia).
  split; [exact Hp|]. split; [reflexivity|].
  apply (proj1 withinCharLimit_lines_fit "one two  three four" 12%Z "// "
           _ Hp).
  reflexivity.
Defined.

Lemma concat_empty_cons (x : string) (l : list string) :
  concat "" (x :: l) = x ++ concat "" l.
Proof. apply join_empty_cons. Qed.

Lemma addWord_all_fit (limit : Z) (prefix : string) (words : list string) :
  forall lines currentLine,
    (Z.of_nat (length currentLine
               + list_sum (map (fun w => S (length w)) words))
     <= limit + 1)%Z ->
    fold_left (addWord limit prefix) words (lines, currentLine)
    = (lines, currentLine ++ concat "" (map (fun w => w ++ " ") words)).
Proof.
  induction words as [|w words IH]; intros lines cur H.
  - simpl. rewrite append_nil_r. reflexivity.
  - cbn [fold_left]. rewrite addWord_eq. simpl in H.
    replace (limit <? Z.of_nat (length cur + length w))%Z with false
      by (symmetry; apply Z.ltb_ge; lia).
    rewrite IH.
    + f_equal. change (map (fun w0 => w0 ++ " ") (w :: words))
        with ((w ++ " ") :: map (fun w0 => w0 ++ " ") words).
      rewrite concat_empty_cons, !append_assoc. reflexivity.
    + rewrite !length_append. simpl. lia.
Qed.

Lemma spaced_words (words : list string) :
  words <> [] ->
  concat "" (map (fun w => w ++ " ") words) = concat " " words ++ " ".
Proof.
  induction words as [|w [|w' words] IH]; intros H; [congruence| |].
  - reflexivity.
  - change (map (fun w0 => w0 ++ " ") (w :: w' :: words))
      with ((w ++ " ") :: map (fun w0 => w0 ++ " ") (w' :: words)).
    rewrite concat_empty_cons.
    rewrite IH by discriminate.
    change (concat " " (w :: w' :: words))
      with (w ++ " " ++ concat " " (w' :: words)).
    rewrite !append_assoc. reflexivity.
Qed.

(** X7.  When the prefix and the text together hold at most [limit] code
    units, [withinCharLimit] returns one line: the prefix and the words of
    the text, one space between them, without the white space at the
    end. *)
Theorem withinCharLimit_short_text :
  forall text limit prefix,
    (Z.of_nat (length prefix + length text) <= limit)%Z ->
    withinCharLimit text limit prefix true
    = inl [trimEnd (prefix ++ join (splitRuns isWhiteSpace text) " ")].
Proof.
  intros text limit prefix H. unfold withinCharLimit.
  pose proof (splitRunsFrom_lengths isWhiteSpace text false) as L.
  pose proof (splitRunsFrom_not_nil isWhiteSpace text false) as N.
  fold (splitRuns isWhiteSpace text) in L, N.
  rewrite addWord_all_fit by lia.
  rewrite (spaced_words _ N).
  replace (truthy (prefix ++ concat " " (splitRuns isWhiteSpace text) ++ " "))
    with true.
  - simpl. unfold join. rewrite <- append_assoc.
    rewrite trimEnd_space by reflexivity. reflexivity.
  - rewrite <- append_assoc.
    destruct (prefix ++ concat " " (splitRuns isWhiteSpace text));
      reflexivity.
Qed.

Lemma withinCharLimit_short_text_witness :
  (Z.of_nat (length "> " + length " to  be or   not ") <= 40)%Z
  /\ withinCharLimit " to  be or   not " 40 "> " true
     = inl [">  to be or not"].
Proof.
  split; [simpl; lia|].
  apply (withinCharLimit_short_text " to  be or   not " 40 "> ").
  simpl. lia.
Defined.

End DataUtilsFacts.

(** * MESSAGES: [temporaryMessage] *)

Module TimersFacts.
Import Timers Props.
#[local] Open Scope Z_scope.

(** *** Numbers and delays *)

Lemma Qred_num (z : Z) : Qred (num z) = num z.
Proof.
  unfold num, inject_Z, Qred. simpl.
  pose proof (Z.ggcd_gcd z 1) as G. pose proof (Z.ggcd_correct_divisors z 1) as D.
  destruct (Z.ggcd z 1) as [g [a b]]. simpl in *.
  rewrite Z.gcd_1_r in G. subst g. destruct D as [Da Db].
  rewrite Z.mul_1_l in Da, Db. subst a b. reflexivity.
Qed.

Lemma sub_num (a b : Z) : sub (num a) (num b) = num (a - b).
Proof.
  unfold sub. rewrite <- (Qred_num (a - b)). apply Qred_complete.
  unfold num, Qminus. rewrite <- inject_Z_opp, <- inject_Z_plus.
  reflexivity.
Qed.

Lemma delayMs_pos (after : Q) : 1 <= delayMs after.
Proof.
  unfold delayMs.
  destruct (Qle_bool 1 after) eqn:L; simpl; [|lia].
  destruct (Qle_bool after (num TIMEOUT_MAX)); [|lia].
  apply Qle_bool_imp_le in L. unfold Qle in L. simpl in L.
  rewrite ?Z.mul_1_r, ?Z.mul_1_l in L.
  apply Z.quot_le_lower_bound; lia.
Qed.

Lemma delayMs_num (z : Z) :
  1 <= z <= TIMEOUT_MAX -> delayMs (num z) = z.
Proof.
  intros [L U]. unfold delayMs.
  replace (Qle_bool 1 (num z)) with true.
  - replace (Qle_bool (num z) (num TIMEOUT_MAX)) with true.
    + simpl. apply Z.quot_1_r.
    + symmetry. apply Qle_bool_iff. unfold num. rewrite <- Zle_Qle. exact U.
  - symmetry. apply Qle_bool_iff. change 1%Q with (inject_Z 1).
    unfold num. rewrite <- Zle_Qle. exact L.
Qed.

Lemma div_100_nonneg (n : Z) : 0 < n -> (0 <= div (num 100) (num n))%Q.
Proof.
  intros H. unfold div. rewrite Qred_correct.
  apply Qmult_le_0_compat; [discriminate|].
  apply Qinv_le_0_compat. unfold num. change 0%Q with (inject_Z 0).
  rewrite <- Zle_Qle. lia.
Qed.

(** *** The loop that can be run is one of the loops *)

Section Loop.
Variable time : Z.
Variable options : Options.

#[local] Abbreviation fire := (fire time options).
#[local] Abbreviation step := (step time options).
#[local] Abbreviation steps := (steps time options).
#[local] Abbreviation run := (run time options).

Lemma scan_Best (table : Z -> option Timer) (lo : Z) :
  forall count h best,
    lo <= h ->
    Best table lo h best ->
    Best table lo (h + Z.of_nat count) (scan table h count best).
Proof.
  induction count as [|count IH]; intros h best Hlo B.
  - simpl. rewrite Z.add_0_r. exact B.
  - simpl scan.
    replace (h + Z.of_nat (S count)) with ((h + 1) + Z.of_nat count)
      by lia.
    apply IH; [lia|].
    destruct (table h) as [t|] eqn:T.
    + destruct best as [[hb b]|].
      * destruct B as [Bb Bmin].
        destruct (due t <? due b) eqn:C.
        -- apply Z.ltb_lt in C. split; [exact T|].
           intros k t' Hk Tk.
           destruct (Z.eq_dec k h) as [->|Ne].
           ++ rewrite T in Tk. injection Tk as <-. lia.
           ++ assert (due b <= due t') by (apply (Bmin k t'); [lia | exact Tk]).
              lia.
        -- apply Z.ltb_ge in C. split; [exact Bb|].
           intros k t' Hk Tk.
           destruct (Z.eq_dec k h) as [->|Ne].
           ++ rewrite T in Tk. injection Tk as <-. lia.
           ++ apply (Bmin k t'); [lia | exact Tk].
      * split; [exact T|].
        intros k t' Hk Tk.
        destruct (Z.eq_dec k h) as [->|Ne].
        -- rewrite T in Tk. injection Tk as <-. lia.
        -- simpl in B. rewrite B in Tk by lia. discriminate.
    + destruct best as [[hb b]|].
      * destruct B as [Bb Bmin]. split; [exact Bb|].
        intros k t' Hk Tk.
        destruct (Z.eq_dec k h) as [->|Ne]; [congruence|].
        apply (Bmin k t'); [lia | exact Tk].
      * simpl in *. intros k Hk.
        destruct (Z.eq_dec k h) as [->|Ne]; [exact T|].
        apply B. lia.
Qed.

Lemma next_Best (w : World) :
  1 <= nextHandle w -> Best (timers w) 1 (nextHandle w) (next w).
Proof.
  intros H. unfold next.
  replace (nextHandle w) with (1 + Z.of_nat (Z.to_nat (nextHandle w - 1)))
    at 1 by lia.
  apply scan_Best; [lia|]. simpl. intros k Hk. lia.
Qed.

Lemma next_Earliest (w : World) (h : Z) (t : Timer) :
  Supported w -> next w = Some (h, t) -> Earliest w h t.
Proof.
  intros [Hn Hs] N. pose proof (next_Best w Hn) as B.
  rewrite N in B. destruct B as [T M]. split; [exact T|].
  intros h' t' T'. apply (M h' t'); [apply (Hs h' t' T') | exact T'].
Qed.

Lemma next_None (w : World) :
  Supported w -> next w = None -> forall h, timers w h = None.
Proof.
  intros [Hn Hs] N h. pose proof (next_Best w Hn) as B.
  rewrite N in B. simpl in B.
  destruct (timers w h) as [t|] eqn:T; [|reflexivity].
  rewrite <- T. apply B. apply (Hs h t T).
Qed.

Lemma Supported_fire (w : World) (h : Z) (t : Timer) :
  Supported w -> timers w h = Some t -> Supported (fire h t w).
Proof.
  intros [Hn Hs] T.
  assert (E : nextHandle (fire h t w) = nextHandle w)
    by (unfold fire; destruct (callback t); reflexivity).
  assert (F : forall k x, timers (fire h t w) k = Some x ->
                          k = h \/ timers w k = Some x).
  { intros k x. unfold fire.
    destruct (callback t), (repeat t); simpl; unfold update;
      destruct (k =? h) eqn:K; try apply Z.eqb_eq in K; auto;
      discriminate. }
  split; rewrite E; [exact Hn|].
  intros k x Hk. destruct (F k x Hk) as [->|Hk']; eauto.
Qed.

(** A property of the start that every firing keeps holds after every
    number of steps. *)
Lemma steps_invariant (P : World -> Prop) (w0 : World) :
  P w0 ->
  (forall w h t, P w -> Earliest w h t -> P (fire h t w)) ->
  forall n w, steps w0 n w -> P w.
Proof.
  intros H0 Hstep n w St. induction St as [|n w1 w2 _ IH [h t E]].
  - exact H0.
  - apply Hstep; assumption.
Qed.

(** [run] makes one step per unit of fuel until no timer is left. *)
Lemma run_steps (fuel : nat) :
  forall w0 n w,
    Supported w ->
    steps w0 n w ->
    exists m,
      steps w0 (n + m) (run fuel w)
      /\ (m = fuel \/ next (run fuel w) = None).
Proof.
  induction fuel as [|fuel IH]; intros w0 n w Hs St.
  - exists 0%nat. rewrite Nat.add_0_r. simpl. auto.
  - simpl. destruct (next w) as [[h t]|] eqn:N.
    + pose proof (next_Earliest w h t Hs N) as E.
      destruct (IH w0 (S n) (fire h t w)) as [m [St' Hm]].
      * apply Supported_fire; [exact Hs | apply E].
      * econstructor; [exact St | constructor; exact E].
      * exists (S m). rewrite Nat.add_succ_r.
        split; [exact St'|]. destruct Hm; [left; lia | right; assumption].
    + exists 0%nat. rewrite Nat.add_0_r. rewrite ?N. auto.
Qed.

(** *** What a firing changes *)

Lemma fire_trace (h : Z) (t : Timer) (w : World) :
  exists e,
    trace (fire h t w) = (Z.max (now w) (due t), e) :: trace w
    /\ eventOf options (callback t) e.
Proof.
  unfold fire, eventOf. destruct (callback t); simpl; eauto.
Qed.

Lemma fire_timers (h : Z) (t : Timer) (w : World) :
  timers (fire h t w) =
    update (timers w) h
      match repeat t with
      | Some d => Some (mkTimer (Z.max (now w) (due t) + d) (Some d)
                          (callback t))
      | None => None
      end.
Proof.
  unfold fire. destruct (callback t), (repeat t); reflexivity.
Qed.

Lemma fire_now (h : Z) (t : Timer) (w : World) :
  now (fire h t w) = Z.max (now w) (due t).
Proof. unfold fire. destruct (callback t); reflexivity. Qed.

Lemma fire_percentage (h : Z) (t : Timer) (w : World) :
  percentage (fire h t w) =
    match callback t with
    | TickCb =>
        if Qle_bool (num 100) (percentage w) then num 100
        else add (percentage w) (div (num 100) (num (ticks options)))
    | JumpCb => num 100
    | ResolveCb => percentage w
    end.
Proof. unfold fire. destruct (callback t); reflexivity. Qed.

Lemma fire_nextHandle (h : Z) (t : Timer) (w : World) :
  nextHandle (fire h t w) = nextHandle w.
Proof. unfold fire. destruct (callback t); reflexivity. Qed.

Lemma update_same (table : Z -> option Timer) (h : Z) (v : option Timer) :
  update table h v h = v.
Proof. unfold update. rewrite Z.eqb_refl. reflexivity. Qed.

Lemma update_other (table : Z -> option Timer) (h k : Z)
  (v : option Timer) :
  k <> h -> update table h v k = table k.
Proof.
  intros N. unfold update. apply Z.eqb_neq in N. rewrite N. reflexivity.
Qed.

Lemma tickReports_cons (c : Z) (e : Event) (tr : list (Z * Event)) :
  tickReports ((c, e) :: tr) =
    (tickReports tr ++ match e with
                       | Report i (Some _) => [(c, i)]
                       | _ => []
                       end)%list.
Proof.
  unfold tickReports. simpl. rewrite rev_app_distr.
  destruct e as [| i [m|] | |]; reflexivity.
Qed.

End Loop.

(** *** The interval is cleared at the start *)

Ltac table_cases H :=
  unfold update in H;
  repeat match type of H with
    | context [(?k =? ?x)%Z] =>
        destruct (Z.eqb_spec k x); [subst; try lia|]
    end;
  try discriminate; try (injection H as <-; simpl).

Section ClearAtStart.
Variable message : string.
Variable time : Z.
Variable options : Options.

#[local] Abbreviation start host :=
  (temporaryMessage message time options host initial).

Lemma ClearedAtStart_start (host : Host) :
  ClearedAtStart host (start host).
Proof.
  pose proof (delayMs_pos
                (div (sub (num time) (num (endLength options)))
                   (num (ticks options)))) as D1.
  pose proof (delayMs_pos (sub (num time) (num (endLength options))))
    as D2.
  pose proof (delayMs_pos (num time)) as D3.
  unfold temporaryMessage, task, setInterval, setTimeout, arm.
  destruct host, (0 <? endLength options); simpl; constructor; simpl;
    try discriminate.
  all: try (intros h t H; table_cases H;
            (split; [lia | intros d Hd; try discriminate;
                           injection Hd as <-; lia])).
  all: try (eexists; simpl; eauto; fail).
  all: try (intros c h H; repeat destruct H as [H|H];
            try discriminate; try contradiction;
            injection H as <- _; reflexivity).
  all: try (intros c H; repeat destruct H as [H|H];
            try discriminate; contradiction).
  all: try (intros _; split; [auto|]; split; [reflexivity|];
            intros h t H; table_cases H; discriminate).
  all: try (intros _; split; [auto|]; eexists; unfold update; simpl;
            split; [reflexivity|]; split; [reflexivity | discriminate]).
Qed.

Lemma ClearedAtStart_fire (host : Host) (w : World) (h : Z) (t : Timer) :
  ClearedAtStart host w -> Earliest w h t ->
  ClearedAtStart host (fire time options h t w).
Proof.
  intros [Hdue Hclear Honly Hsettled Honce Hlater] [T _].
  destruct (Hdue h t T) as [Dt Dr].
  destruct (fire_trace time options h t w) as [e [Etr Ev]].
  pose proof (fire_timers time options h t w) as Etm.
  constructor.
  - intros k x. rewrite Etm. unfold update.
    destruct (k =? h).
    + destruct (repeat t) as [d|] eqn:R; [|discriminate].
      intros H. injection H as <-. simpl. specialize (Dr d eq_refl).
      split; [lia|]. intros d' Hd'. injection Hd' as <-. exact Dr.
    + apply Hdue.
  - destruct Hclear as [x Hx]. exists x. rewrite Etr. right. exact Hx.
  - intros c x. rewrite Etr. intros [H|H]; [|eauto].
    injection H as _ ->. destruct (callback t); simpl in Ev;
      [destruct Ev as [m Ev]| |]; discriminate Ev.
  - intros c. rewrite Etr. intros [H|H]; [|eauto].
    injection H as <- _. lia.
  - intros Hh. destruct (Honce Hh) as [Hc [Hrep Hno]].
    split; [rewrite Etr; right; exact Hc|]. split.
    + rewrite Etr, tickReports_cons, Hrep.
      pose proof (Hno h t T) as Ncb.
      destruct (callback t); simpl in Ev; [congruence| |];
        rewrite Ev; reflexivity.
    + intros k x. rewrite Etm. unfold update. destruct (k =? h).
      * destruct (repeat t); [|discriminate].
        intros H. injection H as <-. simpl. apply (Hno h t T).
      * apply Hno.
  - intros Hh. destruct (Hlater Hh) as [Hc [x [Tx [Cx Rx]]]].
    split; [rewrite Etr; right; exact Hc|].
    rewrite Etm. unfold update. destruct (1 =? h) eqn:K.
    + apply Z.eqb_eq in K. subst h. rewrite T in Tx. injection Tx as <-.
      destruct (repeat t) as [d|]; [|congruence].
      eexists. split; [reflexivity|]. simpl. split; [exact Cx|discriminate].
    + exists x. auto.
Qed.

Lemma ClearedAtStart_steps (host : Host) (n : nat) (w : World) :
  steps time options (start host) n w -> ClearedAtStart host w.
Proof.
  apply steps_invariant.
  - apply ClearedAtStart_start.
  - intros w' h t. apply ClearedAtStart_fire.
Qed.

Lemma SettlesAt_start (host : Host) :
  SettlesAt (delayMs (num time)) (start host).
Proof.
  pose proof (delayMs_pos
                (div (sub (num time) (num (endLength options)))
                   (num (ticks options)))) as D1.
  pose proof (delayMs_pos (sub (num time) (num (endLength options))))
    as D2.
  pose proof (delayMs_pos (num time)) as D3.
  unfold temporaryMessage, task, setInterval, setTimeout, arm.
  destruct host, (0 <? endLength options); simpl; split; simpl.
  all: try (intros c H; repeat destruct H as [H|H];
            try discriminate; contradiction).
  all: intros h t H; table_cases H;
    (split; [lia|]; split;
     [intros d Hd; try discriminate; injection Hd as <-; lia
     |intros Hc; try discriminate; split; reflexivity]).
Qed.

Lemma SettlesAt_fire (T : Z) (w : World) (h : Z) (t : Timer) :
  SettlesAt T w -> Earliest w h t -> SettlesAt T (fire time options h t w).
Proof.
  intros [Htm Htr] [Tt M].
  destruct (Htm h t Tt) as (Hnow & Hrep & Hres).
  destruct (fire_trace time options h t w) as [e [Etr Ev]].
  rewrite Z.max_r in Etr by exact Hnow.
  split.
  - intros k x. rewrite fire_timers, fire_now, Z.max_r by exact Hnow.
    unfold update. destruct (k =? h).
    + destruct (repeat t) as [d|] eqn:R; [|discriminate].
      intros H. injection H as <-. simpl. specialize (Hrep d eq_refl).
      split; [lia|]. split.
      * intros d' Hd'. injection Hd' as <-. exact Hrep.
      * intros Hc. destruct (Hres Hc) as [_ N]. discriminate N.
    + intros Hk. destruct (Htm k x Hk) as (_ & Hrep' & Hres').
      split; [apply (M k x Hk)|]. split; assumption.
  - intros c. rewrite Etr. intros [H|H]; [|auto].
    injection H as <- ->.
    destruct (callback t); simpl in Ev;
      [destruct Ev as [m Ev]; discriminate Ev | discriminate Ev|].
    apply Hres. reflexivity.
Qed.

Lemma SettlesAt_steps (host : Host) (n : nat) (w : World) :
  steps time options (start host) n w -> SettlesAt (delayMs (num time)) w.
Proof.
  apply steps_invariant.
  - apply SettlesAt_start.
  - intros w' h t. apply SettlesAt_fire.
Qed.

Lemma Supported_start (host : Host) : Supported (start host).
Proof.
  unfold temporaryMessage, task, setInterval, setTimeout, arm.
  destruct host, (0 <? endLength options); simpl; split; simpl;
    try lia; intros h t H; table_cases H.
Qed.

End ClearAtStart.

(** C5.  In every run the operation settles only at the clock value of the
    delay [time], which is [time] for a whole [1 <= time <= 2147483647].
    But the call [clearInterval(tickLoop)] of every run happens at clock 0,
    in the synchronous code after [withProgress] has returned, and the
    operation settles at clock 1 at the earliest: the interval is not
    cleared when the wait completes.  With a host that calls the task at
    once the call cancels the tick timer before its first tick, so no tick
    is ever reported; with a host that calls the task later the call is
    [clearInterval(-1)], and the tick timer stays armed for good. *)
Theorem temporaryMessage_clears_at_start :
  forall message time options host n w,
    steps time options (temporaryMessage message time options host initial)
      n w ->
    (forall c, In (c, Settled) (trace w) -> c = delayMs (num time))
    /\ (1 <= time <= TIMEOUT_MAX -> delayMs (num time) = time)
    /\ (exists h, In (0, ClearInterval h) (trace w))
    /\ (forall c h, In (c, ClearInterval h) (trace w) -> c = 0)
    /\ (forall c, In (c, Settled) (trace w) -> 1 <= c)
    /\ (host = CallsTaskAtOnce ->
        In (0, ClearInterval 1) (trace w)
        /\ tickReports (trace w) = []
        /\ (forall h t, timers w h = Some t -> callback t <> TickCb))
    /\ (host = CallsTaskLater ->
        In (0, ClearInterval (-1)) (trace w)
        /\ exists t,
            timers w 1 = Some t /\ callback t = TickCb
            /\ repeat t <> None).
Proof.
  intros message time options host n w St.
  destruct (ClearedAtStart_steps message time options host n w St)
    as [_ Hclear Honly Hsettled Honce Hlater].
  destruct (SettlesAt_steps message time options host n w St) as [_ Hat].
  split; [exact Hat|]. split; [apply delayMs_num|]. auto.
Qed.

Lemma temporaryMessage_clears_at_start_witness :
  let options := mkOptions 10 (fun _ => "") 0 false in
  let w0 := temporaryMessage "Saved" 1000 options CallsTaskAtOnce initial in
  let w := run 1000 options 1 w0 in
  steps 1000 options w0 1 w
  /\ trace w = [(1000, Settled); (0, ClearInterval 1);
                (0, Report (num 0) None); (0, WithProgress "Saved" false)]
  /\ (forall c h, In (c, ClearInterval h) (trace w) -> c = 0)
  /\ (forall c, In (c, Settled) (trace w) -> 1 <= c)
  /\ tickReports (trace w) = [].
Proof.
  intros options w0 w.
  assert (St : steps 1000 options w0 1 w).
  { apply (steps_S 1000 options w0 0 w0); [apply steps_O|].
    apply (step_fire 1000 options w0 2 (mkTimer 1000 None ResolveCb)).
    apply next_Earliest; [apply Supported_start | reflexivity]. }
  split; [exact St|]. split; [reflexivity|].
  destruct (temporaryMessage_clears_at_start
              "Saved" 1000 options CallsTaskAtOnce 1%nat w St)
    as (_ & _ & _ & Honly & Hsettled & Honce & _).
  split; [exact Honly|]. split; [exact Hsettled|].
  apply (Honce eq_refl).
Defined.

(** C4.  [temporaryMessage] with the duration 1000, 10 ticks and the end
    length 0.  The tick period is 100, and in every run the operation
    settles at clock 1000 only.  With a host that calls the task at
    once, no run reports a tick: the run settles at clock 1000 after the
    report of the increment 0 and the call [clearInterval(1)] at clock 0,
    and no timer is left.  With a host that calls the task later, ticks of
    10 are reported at 100, 200, ..., 1000, the operation settles at 1000,
    and the ticks go on after it: the tick timer is armed in every state of
    every run, and 20 ticks have been reported after 21 steps. *)
Theorem temporaryMessage_1000_10_0 :
  forall message updateMessage cancellable,
    let options := mkOptions 10 updateMessage 0 cancellable in
    let start host := temporaryMessage message 1000 options host initial in
    delayMs (div (sub (num 1000) (num 0)) (num 10)) = 100
    /\ (forall host n w,
           steps 1000 options (start host) n w ->
           forall c, In (c, Settled) (trace w) -> c = 1000)
    /\ (forall n w,
           steps 1000 options (start CallsTaskAtOnce) n w ->
           tickReports (trace w) = [])
    /\ trace (run 1000 options 1 (start CallsTaskAtOnce))
       = [(1000, Settled); (0, ClearInterval 1); (0, Report (num 0) None);
          (0, WithProgress message cancellable)]
    /\ next (run 1000 options 1 (start CallsTaskAtOnce)) = None
    /\ tickReports (trace (run 1000 options 10 (start CallsTaskLater)))
       = [(100, num 10); (200, num 10); (300, num 10); (400, num 10);
          (500, num 10); (600, num 10); (700, num 10); (800, num 10);
          (900, num 10); (1000, num 10)]
    /\ In (1000, Settled)
         (trace (run 1000 options 11 (start CallsTaskLater)))
    /\ List.length
         (tickReports (trace (run 1000 options 21 (start CallsTaskLater))))
       = 20%nat
    /\ (forall n w,
           steps 1000 options (start CallsTaskLater) n w ->
           exists t, timers w 1 = Some t /\ callback t = TickCb).
Proof.
  intros message updateMessage cancellable options start.
  split; [reflexivity|].
  split.
  { intros host n w St.
    apply (SettlesAt_steps message 1000 options host n w St). }
  split.
  { intros n w St.
    apply (ClearedAtStart_steps message 1000 options CallsTaskAtOnce n w St).
    reflexivity. }
  split; [reflexivity|]. split; [reflexivity|].
  split; [vm_compute; reflexivity|].
  split; [vm_compute; auto|].
  split; [vm_compute; reflexivity|].
  intros n w St.
  destruct (ClearedAtStart_steps message 1000 options CallsTaskLater n w St)
    as [_ _ _ _ _ Hlater].
  destruct (Hlater eq_refl) as [_ [t [T [C _]]]]. eauto.
Qed.

Lemma temporaryMessage_1000_10_0_witness :
  let options := mkOptions 10 (fun _ => "") 0 false in
  let w0 := temporaryMessage "Saved" 1000 options CallsTaskAtOnce initial in
  steps 1000 options w0 1 (run 1000 options 1 w0)
  /\ tickReports (trace (run 1000 options 1 w0)) = [].
Proof.
  intros options w0.
  assert (St : steps 1000 options w0 1 (run 1000 options 1 w0)).
  { apply (steps_S 1000 options w0 0 w0); [apply steps_O|].
    apply (step_fire 1000 options w0 2 (mkTimer 1000 None ResolveCb)).
    apply next_Earliest; [apply Supported_start | reflexivity]. }
  split; [exact St|].
  exact (proj1 (proj2 (proj2 (temporaryMessage_1000_10_0 "Saved"
                                (fun _ => "") false)))
           1%nat _ St).
Defined.

(** *** The sum of the increments *)

Lemma increments_bounds (tr : list (Z * Event)) :
  (forall c i m, In (c, Report i m) tr -> (0 <= i)%Q) ->
  (0 <= increments tr)%Q
  /\ (forall c i m, In (c, Report i m) tr -> (i <= increments tr)%Q).
Proof.
  induction tr as [|[c0 e] tr IH]; intros Hpos.
  - split; [discriminate | intros c i m []].
  - destruct IH as [IH0 IH1].
    { intros c i m H. apply (Hpos c i m). right. exact H. }
    destruct e as [title cn | i0 m0 | h0 |]; simpl.
    2: { assert (P0 : (0 <= i0)%Q)
           by (apply (Hpos c0 i0 m0); left; reflexivity).
         split.
         - rewrite <- (Qplus_0_r 0). apply Qplus_le_compat; assumption.
         - intros c i m [H|H].
           + injection H as _ <- _.
             rewrite <- (Qplus_0_r i0) at 1.
             apply Qplus_le_compat; [apply Qle_refl | exact IH0].
           + rewrite <- (Qplus_0_l i).
             apply Qplus_le_compat; [exact P0 | exact (IH1 c i m H)]. }
    all: split; [exact IH0|]; intros c i m [H|H];
      [discriminate H | exact (IH1 c i m H)].
Qed.

Lemma shown_100 (tr : list (Z * Event)) (c : Z) (m : option string) :
  (forall c i m, In (c, Report i m) tr -> (0 <= i)%Q) ->
  In (c, Report (num 100) m) tr ->
  shown tr = num 100.
Proof.
  intros Hpos H. unfold shown.
  destruct (increments_bounds tr Hpos) as [_ B].
  specialize (B c _ m H). apply Qle_bool_iff in B. rewrite B. reflexivity.
Qed.

(** *** The jump to 100% and the end of the wait *)

Section JumpAndSettle.
Variable message : string.
Variable time : Z.
Variable options : Options.
Hypothesis end_pos : 0 < endLength options.
Hypothesis end_lt : endLength options < time.
Hypothesis time_max : time <= TIMEOUT_MAX.

#[local] Abbreviation start host :=
  (temporaryMessage message time options host initial).

Lemma Holds100_start (host : Host) :
  Holds100 time options host (start host).
Proof.
  pose proof (delayMs_pos
                (div (sub (num time) (num (endLength options)))
                   (num (ticks options)))) as D1.
  assert (D2 : delayMs (sub (num time) (num (endLength options)))
               = time - endLength options)
    by (rewrite sub_num; apply delayMs_num; lia).
  assert (D3 : delayMs (num time) = time) by (apply delayMs_num; lia).
  assert (E : (0 <? endLength options) = true) by (apply Z.ltb_lt; lia).
  unfold temporaryMessage, task, setInterval, setTimeout, arm.
  rewrite E. unfold jumpTimer, resolveTimer, jumpEvent.
  destruct host; simpl; rewrite ?D2, ?D3; constructor; simpl.
  all: try reflexivity.
  all: try (intros h N1 N2 N3; unfold update;
            repeat match goal with
              | |- context [(?k =? ?x)%Z] =>
                  destruct (Z.eqb_spec k x); [congruence|]
              end; reflexivity).
  all: try (left; split; [reflexivity|]; split; [lia|];
            intros c H; repeat destruct H as [H|H];
            try discriminate; contradiction).
  all: try (intros c H; repeat destruct H as [H|H];
            try discriminate; contradiction).
  all: try (intros Ht c i m H; repeat destruct H as [H|H];
            try discriminate; try contradiction;
            injection H as _ <- _; discriminate).
  all: try (do 2 eexists; split; [reflexivity|]; lia).
Qed.

Lemma Holds100_fire (host : Host) (w : World) (h : Z) (t : Timer) :
  Holds100 time options host w -> Earliest w h t ->
  Holds100 time options host (fire time options h t w).
Proof.
  intros [Hn Ho Ht Hj Hr Hja Hsa Hi] [T M].
  destruct (fire_trace time options h t w) as [e [Etr Ev]].
  pose proof (fire_timers time options h t w) as Etm.
  pose proof (fire_now time options h t w) as Enow.
  pose proof (fire_nextHandle time options h t w) as Enh.
  pose proof (fire_percentage time options h t w) as Epc.
  set (w' := fire time options h t w) in *. clearbody w'.
  assert (Hh : h = 1 \/ h = 2 \/ h = 3).
  { destruct (Z.eq_dec h 1), (Z.eq_dec h 2), (Z.eq_dec h 3); auto.
    rewrite Ho in T by assumption. discriminate. }
  destruct Hh as [-> | [-> | ->]].
  - (* the tick timer fires *)
    destruct host; [rewrite Ht in T; discriminate|].
    destruct Ht as (dT & d & T1 & Hd & Hnow).
    rewrite T1 in T. injection T as <-. simpl in *.
    destruct Ev as [m ->]. rewrite Z.max_r in * by lia.
    constructor.
    + rewrite Enh. exact Hn.
    + intros k N1 N2 N3. rewrite Etm, update_other by exact N1.
      apply Ho; assumption.
    + rewrite Etm, update_same. exists (dT + d), d.
      split; [reflexivity|]. rewrite Enow. lia.
    + rewrite Etm, update_other by lia. rewrite Enow, Etr, Epc.
      destruct Hj as [(T2 & N2 & NoJ) | (T2 & InJ & Pc & Jn)].
      * left. split; [exact T2|]. split.
        -- apply (M 2 _ T2).
        -- intros c [H|H]; [discriminate H | exact (NoJ c H)].
      * right. split; [exact T2|]. split; [right; exact InJ|].
        split; [rewrite Pc; reflexivity | lia].
    + rewrite !Etm, !update_other by lia. rewrite Enow, Etr.
      destruct Hr as [(T3 & N3 & NoS) | (T3 & InS & T2)].
      * left. split; [exact T3|]. split.
        -- apply (M 3 _ T3).
        -- intros c [H|H]; [discriminate H | exact (NoS c H)].
      * right. split; [exact T3|]. split; [right; exact InS | exact T2].
    + intros c. rewrite Etr. intros [H|H]; [discriminate H | auto].
    + intros c. rewrite Etr. intros [H|H]; [discriminate H | auto].
    + intros Hticks c i m'. rewrite Etr. intros [H|H]; [|eauto].
      injection H as _ <- _. apply div_100_nonneg, Hticks.
  - (* the jump to 100% *)
    destruct Hj as [(T2 & N2 & NoJ) | (T2 & _)];
      [|rewrite T2 in T; discriminate].
    rewrite T2 in T. injection T as <-. unfold jumpTimer in *.
    simpl in *. subst e. rewrite Z.max_r in * by lia.
    destruct Hr as [(T3 & N3 & NoS) | (_ & _ & T2')];
      [|rewrite T2' in T2; discriminate].
    constructor.
    + rewrite Enh. exact Hn.
    + intros k N1 N2' N3'. rewrite Etm, update_other by exact N2'.
      apply Ho; assumption.
    + rewrite Etm, update_other by lia. destruct host; [exact Ht|].
      destruct Ht as (dT & d & T1 & Hd & Hnow). exists dT, d.
      split; [exact T1|]. split; [exact Hd|]. rewrite Enow.
      apply (M 1 _ T1).
    + right. rewrite Etm, update_same, Etr, Epc, Enow.
      split; [reflexivity|]. split; [left; reflexivity|].
      split; [reflexivity | lia].
    + left. rewrite Etm, update_other by lia. rewrite Enow, Etr.
      split; [exact T3|]. split; [lia|].
      intros c [H|H]; [discriminate H | exact (NoS c H)].
    + intros c. rewrite Etr. intros [H|H]; [|auto].
      injection H as <-. reflexivity.
    + intros c. rewrite Etr. intros [H|H]; [discriminate H | auto].
    + intros Hticks c i m'. rewrite Etr. intros [H|H]; [|eauto].
      injection H as _ <- _. discriminate.
  - (* the resolver *)
    destruct Hr as [(T3 & N3 & NoS) | (T3 & _)];
      [|rewrite T3 in T; discriminate].
    rewrite T3 in T. injection T as <-. unfold resolveTimer in *.
    simpl in *. subst e. rewrite Z.max_r in * by lia.
    destruct Hj as [(T2 & _) | (T2 & InJ & Pc & Jn)].
    { specialize (M 2 _ T2). unfold jumpTimer in M. simpl in M. lia. }
    constructor.
    + rewrite Enh. exact Hn.
    + intros k N1 N2' N3'. rewrite Etm, update_other by exact N3'.
      apply Ho; assumption.
    + rewrite Etm, update_other by lia. destruct host; [exact Ht|].
      destruct Ht as (dT & d & T1 & Hd & Hnow). exists dT, d.
      split; [exact T1|]. split; [exact Hd|]. rewrite Enow.
      apply (M 1 _ T1).
    + right. rewrite Etm, update_other by lia. rewrite Etr, Epc, Enow.
      split; [exact T2|]. split; [right; exact InJ|].
      split; [exact Pc | lia].
    + right. rewrite !Etm, update_same, update_other by lia.
      rewrite Etr. split; [reflexivity|].
      split; [left; reflexivity | exact T2].
    + intros c. rewrite Etr. intros [H|H]; [discriminate H | auto].
    + intros c. rewrite Etr. intros [H|H]; [|auto].
      injection H as <-. reflexivity.
    + intros Hticks c i m'. rewrite Etr. intros [H|H]; [|eauto].
      discriminate H.
Qed.

Lemma Holds100_steps (host : Host) (n : nat) (w : World) :
  steps time options (start host) n w -> Holds100 time options host w.
Proof.
  apply steps_invariant.
  - apply Holds100_start.
  - intros w' h t. apply Holds100_fire.
Qed.

(** Every firing before the resolver has run uses up a round. *)
Lemma rounds_fire (host : Host) (w : World) (h : Z) (t : Timer) :
  Holds100 time options host w -> Earliest w h t ->
  timers w 3 <> None ->
  rounds time (fire time options h t w) + 1 <= rounds time w.
Proof.
  intros [Hn Ho Ht Hj Hr Hja Hsa Hi] [T M] P3.
  pose proof (fire_timers time options h t w) as Etm.
  destruct Hr as [(T3 & N3 & NoS) | (T3 & _)]; [|congruence].
  assert (Hh : h = 1 \/ h = 2 \/ h = 3).
  { destruct (Z.eq_dec h 1), (Z.eq_dec h 2), (Z.eq_dec h 3); auto.
    rewrite Ho in T by assumption. discriminate. }
  unfold rounds. rewrite !Etm.
  destruct Hh as [-> | [-> | ->]].
  - destruct host; [rewrite Ht in T; discriminate|].
    destruct Ht as (dT & d & T1 & Hd & Hnow).
    rewrite T1 in T. injection T as <-.
    specialize (M 3 _ T3). simpl in M.
    unfold update. simpl. rewrite T1. simpl.
    destruct (timers w 2), (timers w 3); lia.
  - destruct Hj as [(T2 & _) | (T2 & _)];
      [|rewrite T2 in T; discriminate].
    rewrite T2 in T. injection T as <-.
    unfold update. simpl. rewrite T2.
    destruct (timers w 3), (timers w 1); lia.
  - rewrite T3 in T. injection T as <-.
    unfold update. simpl. rewrite T3.
    destruct (timers w 2), (timers w 1); lia.
Qed.

Lemma rounds_nonneg (w : World) : 0 <= rounds time w.
Proof.
  unfold rounds.
  destruct (timers w 2), (timers w 3), (timers w 1); lia.
Qed.

Lemma now_start (host : Host) : now (start host) = 0.
Proof.
  unfold temporaryMessage, task, setInterval, setTimeout, arm.
  destruct host, (0 <? endLength options); reflexivity.
Qed.

Lemma rounds_start (host : Host) : rounds time (start host) <= time + 3.
Proof.
  destruct (Holds100_start host) as [_ _ Ht _ _ _ _ _].
  pose proof (now_start host) as N0.
  unfold rounds.
  destruct host.
  - rewrite Ht.
    destruct (timers (start CallsTaskAtOnce) 2),
      (timers (start CallsTaskAtOnce) 3); lia.
  - destruct Ht as (dT & d & T1 & Hd & Hnow). rewrite T1. cbn [due].
    destruct (timers (start CallsTaskLater) 2),
      (timers (start CallsTaskLater) 3); lia.
Qed.

Lemma steps_rounds (host : Host) (n : nat) (w : World) :
  steps time options (start host) n w ->
  timers w 3 <> None ->
  rounds time w + Z.of_nat n <= rounds time (start host).
Proof.
  intros St. induction St as [|n w1 w2 St IH [h t E]]; intros P3.
  - lia.
  - pose proof (Holds100_steps host n w1 St) as H1.
    pose proof (Holds100_fire host w1 h t H1 E) as H2.
    assert (P1 : timers w1 3 <> None).
    { destruct (h_resolve _ _ _ _ H1) as [(T3 & _) | (_ & InS & _)];
        [congruence|].
      destruct (fire_trace time options h t w1) as [e [Etr _]].
      destruct (h_resolve _ _ _ _ H2) as [(_ & _ & NoS) | (T3 & _)];
        [|contradiction].
      exfalso. apply (NoS time). rewrite Etr. right. exact InS. }
    specialize (IH P1).
    pose proof (rounds_fire host w1 h t H1 E P1). lia.
Qed.

Lemma steps_settled (host : Host) (n : nat) (w : World) :
  steps time options (start host) n w ->
  time + 3 < Z.of_nat n ->
  In (time, Settled) (trace w).
Proof.
  intros St Hn.
  destruct (h_resolve _ _ _ _ (Holds100_steps host n w St))
    as [(T3 & _) | (_ & InS & _)]; [|exact InS].
  exfalso.
  assert (P3 : timers w 3 <> None) by congruence.
  pose proof (steps_rounds host n w St P3).
  pose proof (rounds_start host). pose proof (rounds_nonneg w). lia.
Qed.

Lemma Holds100_Supported (host : Host) (w : World) :
  Holds100 time options host w -> Supported w.
Proof.
  intros [Hn Ho _ _ _ _ _ _]. split; [lia|].
  intros h t T. rewrite Hn.
  destruct (Z.eq_dec h 1), (Z.eq_dec h 2), (Z.eq_dec h 3); try lia.
  rewrite Ho in T by assumption. discriminate.
Qed.

Lemma run_settled (host : Host) :
  In (time, Settled)
    (trace (run time options (Z.to_nat (time + 4)) (start host))).
Proof.
  destruct (run_steps time options (Z.to_nat (time + 4))
              (start host) 0 (start host))
    as [m [St Hm]].
  - eapply Holds100_Supported, Holds100_start.
  - apply steps_O.
  - simpl in St. pose proof (Holds100_steps host _ _ St) as H.
    destruct Hm as [-> | Hnone].
    + apply (steps_settled host _ _ St). lia.
    + destruct (h_resolve _ _ _ _ H) as [(T3 & _) | (_ & InS & _)];
        [|exact InS].
      rewrite (next_None _ (Holds100_Supported host _ H) Hnone) in T3.
      discriminate.
Qed.

End JumpAndSettle.

(** C6, as stated, fails: the default end length 300 with the duration
    200 arms the jump with the delay -100, which the runtime sets to 1.
    The jump to 100% is made at clock 1, not at 200 - 300, and the
    operation settles at clock 200: 100% is held for 199 ms, not 300. *)
Lemma temporaryMessage_end_length_counterexample :
  let start host :=
    temporaryMessage "Saved" 200 defaultOptions host initial in
  0 < endLength defaultOptions
  /\ trace (run 200 defaultOptions 2 (start CallsTaskAtOnce))
     = [(200, Settled); (1, jumpEvent); (0, ClearInterval 1);
        (0, Report (num 0) None); (0, WithProgress "Saved" false)]
  /\ next (run 200 defaultOptions 2 (start CallsTaskAtOnce)) = None
  /\ In (1, jumpEvent)
       (trace (run 200 defaultOptions 2 (start CallsTaskLater)))
  /\ In (200, Settled)
       (trace (run 200 defaultOptions 202 (start CallsTaskLater)))
  /\ 1 <> 200 - endLength defaultOptions
  /\ 200 - 1 <> endLength defaultOptions.
Proof.
  intros start.
  split; [reflexivity|]. split; [reflexivity|]. split; [reflexivity|].
  split; [vm_compute; auto|]. split; [vm_compute; auto|].
  split; discriminate.
Qed.

(** C6, amended.  For whole numbers of milliseconds with
    [0 < endLength < time <= 2147483647], in every run of the timers: the
    jump, the report of the increment 100, is made at clock
    [time - endLength] only, and the operation settles at clock [time]
    only; from the jump on the percentage is 100, and so is the sum of the
    reported increments capped at 100 when [0 < ticks]; the operation
    settles after the jump, and it has settled after [time + 4] firings at
    the latest, as the loop that can be run shows.  So 100% is held for
    [endLength] ms before the operation settles. *)
Theorem temporaryMessage_holds_100 :
  forall message time options host,
    0 < endLength options ->
    endLength options < time ->
    time <= TIMEOUT_MAX ->
    let start := temporaryMessage message time options host initial in
    let jump := time - endLength options in
    (forall n w,
        steps time options start n w ->
        (forall c, In (c, jumpEvent) (trace w) -> c = jump)
        /\ (forall c, In (c, Settled) (trace w) -> c = time)
        /\ (In (jump, jumpEvent) (trace w) ->
            percentage w = num 100
            /\ (0 < ticks options -> shown (trace w) = num 100))
        /\ (In (time, Settled) (trace w) -> In (jump, jumpEvent) (trace w))
        /\ (time + 3 < Z.of_nat n -> In (time, Settled) (trace w)))
    /\ In (time, Settled)
         (trace (run time options (Z.to_nat (time + 4)) start))
    /\ time - jump = endLength options.
Proof.
  intros message time options host HE HT HM start jump.
  split; [|split; [apply run_settled; assumption | unfold jump; lia]].
  intros n w St.
  pose proof (Holds100_steps message time options HE HT HM host n w St)
    as [_ _ _ Hj Hr Hja Hsa Hi].
  split; [exact Hja|]. split; [exact Hsa|]. split; [|split].
  - intros InJ.
    destruct Hj as [(_ & _ & NoJ) | (_ & _ & Pc & _)];
      [destruct (NoJ _ InJ)|].
    split; [exact Pc|]. intros Hticks.
    apply (shown_100 (trace w) jump None (Hi Hticks) InJ).
  - intros InS.
    destruct Hr as [(_ & _ & NoS) | (_ & _ & T2)]; [destruct (NoS _ InS)|].
    destruct Hj as [(T2' & _) | (_ & InJ & _)]; [congruence | exact InJ].
  - apply (steps_settled message time options HE HT HM host n w St).
Qed.

Lemma temporaryMessage_holds_100_witness :
  let start :=
    temporaryMessage "Saved" 1000 defaultOptions CallsTaskAtOnce initial in
  (0 < endLength defaultOptions
   /\ endLength defaultOptions < 1000
   /\ 1000 <= TIMEOUT_MAX)
  /\ steps 1000 defaultOptions start 1 (run 1000 defaultOptions 1 start)
  /\ trace (run 1000 defaultOptions 1 start)
     = [(700, jumpEvent); (0, ClearInterval 1); (0, Report (num 0) None);
        (0, WithProgress "Saved" false)]
  /\ percentage (run 1000 defaultOptions 1 start) = num 100
  /\ shown (trace (run 1000 defaultOptions 1 start)) = num 100
  /\ In (1000, Settled)
       (trace (run 1000 defaultOptions (Z.to_nat (1000 + 4)) start)).
Proof.
  intros start.
  assert (HE : 0 < endLength defaultOptions) by reflexivity.
  assert (HT : endLength defaultOptions < 1000) by reflexivity.
  assert (HM : 1000 <= TIMEOUT_MAX) by discriminate.
  assert (St : steps 1000 defaultOptions start 1
                 (run 1000 defaultOptions 1 start)).
  { apply (steps_S 1000 defaultOptions start 0 start); [apply steps_O|].
    apply (step_fire 1000 defaultOptions start 2
             (jumpTimer 1000 defaultOptions)).
    apply next_Earliest; [apply Supported_start | reflexivity]. }
  destruct (temporaryMessage_holds_100 "Saved" 1000 defaultOptions
              CallsTaskAtOnce HE HT HM) as [Hall [Hrun _]].
  destruct (Hall 1%nat _ St) as (_ & _ & Hpc & _).
  split; [auto|]. split; [exact St|]. split; [reflexivity|].
  assert (InJ : In (1000 - endLength defaultOptions, jumpEvent)
                  (trace (run 1000 defaultOptions 1 start)))
    by (left; reflexivity).
  destruct (Hpc InJ) as [Pc Sh].
  split; [exact Pc|]. split; [apply Sh; reflexivity | exact Hrun].
Defined.

(** *** Every schedule, whatever the numbers *)

Lemma overHandles_update (f : option Timer -> Z)
  (table : Z -> option Timer) (h : Z) (v : option Timer) :
  h = 1 \/ h = 2 \/ h = 3 ->
  overHandles f (update table h v)
  = overHandles f table - f (table h) + f v.
Proof.
  intros [-> | [-> | ->]]; unfold overHandles, update; simpl; lia.
Qed.

Lemma runs_bounds (cb : Callback) (o : option Timer) :
  0 <= runs cb o <= 1.
Proof.
  destruct o as [t|]; simpl; [destruct (callback t), cb|]; lia.
Qed.

Lemma runs_one (cb : Callback) (o : option Timer) :
  runs cb o = 1 -> exists t, o = Some t /\ callback t = cb.
Proof.
  destruct o as [t|]; simpl; [|discriminate].
  destruct (callback t) eqn:C, cb; try discriminate;
    intros _; exists t; split; reflexivity || exact C.
Qed.

Lemma overHandles_runs (cb : Callback) (table : Z -> option Timer) :
  1 <= overHandles (runs cb) table ->
  exists h t, table h = Some t /\ callback t = cb.
Proof.
  unfold overHandles. intros H.
  pose proof (runs_bounds cb (table 1)) as B1.
  pose proof (runs_bounds cb (table 2)) as B2.
  pose proof (runs_bounds cb (table 3)) as B3.
  destruct (Z.eq_dec (runs cb (table 1)) 1) as [E|N1];
    [destruct (runs_one _ _ E) as [t [? ?]]; eauto|].
  destruct (Z.eq_dec (runs cb (table 2)) 1) as [E|N2];
    [destruct (runs_one _ _ E) as [t [? ?]]; eauto|].
  destruct (Z.eq_dec (runs cb (table 3)) 1) as [E|N3];
    [destruct (runs_one _ _ E) as [t [? ?]]; eauto|].
  lia.
Qed.

Lemma overHandles_runs_nonneg (cb : Callback) (table : Z -> option Timer) :
  0 <= overHandles (runs cb) table.
Proof.
  unfold overHandles.
  pose proof (runs_bounds cb (table 1)).
  pose proof (runs_bounds cb (table 2)).
  pose proof (runs_bounds cb (table 3)). lia.
Qed.

Lemma happened_cons (p : Event -> bool) (c : Z) (e : Event)
  (tr : list (Z * Event)) :
  happened p ((c, e) :: tr) = happened p tr + (if p e then 1 else 0).
Proof. unfold happened. simpl. destruct (p e); simpl; lia. Qed.

Lemma happened_nonneg (p : Event -> bool) (tr : list (Z * Event)) :
  0 <= happened p tr.
Proof. unfold happened. lia. Qed.

Lemma happened_In (p : Event -> bool) (tr : list (Z * Event)) :
  1 <= happened p tr -> exists c e, In (c, e) tr /\ p e = true.
Proof.
  induction tr as [|[c e] tr IH].
  - unfold happened. simpl. lia.
  - rewrite happened_cons. destruct (p e) eqn:P.
    + intros _. exists c, e. split; [left; reflexivity | exact P].
    + intros H. destruct IH as [c' [e' [I P']]]; [lia|].
      exists c', e'. split; [right|]; assumption.
Qed.

Lemma happened_none (p : Event -> bool) (tr : list (Z * Event)) :
  happened p tr = 0 -> forall c e, In (c, e) tr -> p e = false.
Proof.
  induction tr as [|[c0 e0] tr IH]; intros H c e I; [destruct I|].
  rewrite happened_cons in H. pose proof (happened_nonneg p tr) as N.
  destruct (p e0) eqn:P; [lia|].
  destruct I as [I|I]; [injection I as <- <-; exact P|].
  apply (IH ltac:(lia) c e I).
Qed.

Lemma tickReports_nil (tr : list (Z * Event)) :
  tickReports tr = [] ->
  forall c i m, In (c, Report i m) tr -> m = None.
Proof.
  induction tr as [|[c0 e0] tr IH]; intros H c i m I; [destruct I|].
  rewrite tickReports_cons in H. apply app_eq_nil in H.
  destruct H as [Htr He]. destruct I as [I|I]; [|apply (IH Htr c i m I)].
  injection I as -> ->. destruct m; [discriminate He | reflexivity].
Qed.

Section EverySchedule.
Variable message : string.
Variable time : Z.
Variable options : Options.

#[local] Abbreviation start host :=
  (temporaryMessage message time options host initial).
#[local] Abbreviation T := (delayMs (num time)).

Lemma Alive_start (host : Host) : Alive time options (start host).
Proof.
  pose proof (delayMs_pos
                (div (sub (num time) (num (endLength options)))
                   (num (ticks options)))) as D1.
  pose proof (delayMs_pos (sub (num time) (num (endLength options))))
    as D2.
  pose proof (delayMs_pos (num time)) as D3.
  constructor; [apply Supported_start|..];
    unfold temporaryMessage, task, setInterval, setTimeout, arm;
    destruct host, (0 <? endLength options); simpl.
  all: try reflexivity.
  all: try (intros h N1 N2 N3; unfold update;
            repeat match goal with
              | |- context [(?k =? ?x)%Z] =>
                  destruct (Z.eqb_spec k x); [congruence|]
              end; reflexivity).
  all: try (intros h t H; table_cases H;
            (split; [lia|]);
            first [ split; reflexivity
                  | eexists; split; [reflexivity | lia] ]).
  all: try (intros c i m H; repeat destruct H as [H|H];
            try discriminate; try contradiction;
            injection H as <- <- <-; left; auto).
Qed.

Lemma Alive_handle (w : World) (h : Z) (t : Timer) :
  Alive time options w -> timers w h = Some t -> h = 1 \/ h = 2 \/ h = 3.
Proof.
  intros A Tt.
  destruct (Z.eq_dec h 1), (Z.eq_dec h 2), (Z.eq_dec h 3); auto.
  rewrite (a_other _ _ _ A) in Tt by assumption. discriminate.
Qed.

Lemma Alive_fire (w : World) (h : Z) (t : Timer) :
  Alive time options w -> Earliest w h t ->
  Alive time options (fire time options h t w).
Proof.
  intros A [Tt M].
  pose proof (Alive_handle w h t A Tt) as H123.
  destruct A as [Hs Ho Ht Hse Hj Hr].
  destruct (Ht h t Tt) as [Hnow Hcb].
  destruct (fire_trace time options h t w) as [e [Etr Ev]].
  rewrite Z.max_r in Etr by exact Hnow.
  pose proof (fire_timers time options h t w) as Etm.
  rewrite Z.max_r in Etm by exact Hnow.
  set (jump := if 0 <? endLength options then 1 else 0) in *.
  destruct t as [dt rt ct]. cbn [due repeat callback] in *.
  constructor.
  - apply Supported_fire; assumption.
  - intros k N1 N2 N3. rewrite Etm, update_other by lia. auto.
  - intros k x. rewrite Etm, fire_now, Z.max_r by exact Hnow.
    cbn [due]. unfold update. destruct (k =? h).
    + destruct rt as [d|]; [|discriminate].
      intros H. injection H as <-. cbn [due repeat callback].
      destruct ct;
        [|destruct Hcb as [N _]; discriminate N
         |destruct Hcb as [N _]; discriminate N].
      destruct Hcb as [d' [Hd' Hd1]]. injection Hd' as <-.
      split; [lia|]. exists d. split; [reflexivity | exact Hd1].
    + intros Hk. destruct (Ht k x Hk) as [_ Hx].
      split; [apply (M k x Hk) | exact Hx].
  - rewrite Etr, happened_cons, Etm, overHandles_update by exact H123.
    rewrite Tt. destruct ct; simpl in Ev.
    + destruct Ev as [m ->]. destruct Hcb as [d [-> D]]. simpl. lia.
    + subst e. destruct Hcb as [-> _]. simpl. lia.
    + subst e. destruct Hcb as [-> _]. simpl. lia.
  - rewrite Etr, happened_cons, Etm, overHandles_update by exact H123.
    rewrite Tt. destruct ct; simpl in Ev.
    + destruct Ev as [m ->]. destruct Hcb as [d [-> D]]. simpl. lia.
    + subst e. destruct Hcb as [-> _].
      change (isJump (Report (num 100) None)) with true. simpl. lia.
    + subst e. destruct Hcb as [-> _]. simpl. lia.
  - intros c i m. rewrite Etr. intros [H|H]; [|apply (Hr c i m H)].
    injection H as <- ->. destruct ct; simpl in Ev.
    + destruct Ev as [m0 Ev]. injection Ev as -> ->.
      right. right. discriminate.
    + injection Ev as -> ->. destruct Hcb as [_ ->].
      right. left. auto.
    + discriminate Ev.
Qed.

Lemma Alive_steps (host : Host) (n : nat) (w : World) :
  steps time options (start host) n w -> Alive time options w.
Proof.
  apply steps_invariant.
  - apply Alive_start.
  - intros w' h t. apply Alive_fire.
Qed.

Lemma weight_fire (w : World) (h : Z) (t : Timer) :
  Alive time options w -> Earliest w h t ->
  happened isSettled (trace w) = 0 ->
  overHandles (weight T) (timers (fire time options h t w)) + 1
  <= overHandles (weight T) (timers w).
Proof.
  intros A [Tt M] Z0.
  pose proof (Alive_handle w h t A Tt) as H123.
  destruct A as [Hs Ho Ht Hse Hj Hr].
  destruct (overHandles_runs ResolveCb (timers w)) as [hr [tr [Tr Cr]]];
    [lia|].
  destruct (Ht hr tr Tr) as [_ Hres]. rewrite Cr in Hres.
  destruct Hres as [_ Dr].
  pose proof (M hr tr Tr) as Le. rewrite Dr in Le.
  destruct (Ht h t Tt) as [Hnow Hcb].
  rewrite fire_timers, Z.max_r by exact Hnow.
  rewrite overHandles_update by exact H123. rewrite Tt.
  destruct t as [dt rt ct]. cbn [due repeat callback] in *.
  unfold weight. cbn [due repeat callback].
  destruct ct.
  - destruct Hcb as [d [-> D]]. cbn [due repeat]. lia.
  - destruct Hcb as [-> _]. lia.
  - destruct Hcb as [-> _]. lia.
Qed.

Lemma weight_nonneg (table : Z -> option Timer) :
  0 <= overHandles (weight T) table.
Proof.
  assert (W : forall o, 0 <= weight T o).
  { intros [t|]; unfold weight; [destruct (repeat t)|]; lia. }
  unfold overHandles.
  pose proof (W (table 1)). pose proof (W (table 2)).
  pose proof (W (table 3)). lia.
Qed.

Lemma weight_start (host : Host) :
  overHandles (weight T) (timers (start host)) <= T + 2.
Proof.
  pose proof (delayMs_pos
                (div (sub (num time) (num (endLength options)))
                   (num (ticks options)))) as D1.
  pose proof (delayMs_pos (num time)) as D3.
  unfold temporaryMessage, task, setInterval, setTimeout, arm.
  destruct host, (0 <? endLength options);
    unfold overHandles, weight, update; cbn -[Z.max delayMs div sub num]; lia.
Qed.

Lemma steps_weight (host : Host) (n : nat) (w : World) :
  steps time options (start host) n w ->
  happened isSettled (trace w) = 0 ->
  overHandles (weight T) (timers w) + Z.of_nat n
  <= overHandles (weight T) (timers (start host)).
Proof.
  intros St. induction St as [|n w1 w2 St IH [h t E]]; intros Z0.
  - lia.
  - pose proof (Alive_steps host n w1 St) as A.
    destruct (fire_trace time options h t w1) as [e [Etr _]].
    rewrite Etr, happened_cons in Z0.
    pose proof (happened_nonneg isSettled (trace w1)) as N.
    assert (Z1 : happened isSettled (trace w1) = 0)
      by (destruct (isSettled e); lia).
    specialize (IH Z1).
    pose proof (weight_fire w1 h t A E Z1). lia.
Qed.

Lemma settled_at (host : Host) (n : nat) (w : World) :
  steps time options (start host) n w ->
  1 <= happened isSettled (trace w) ->
  In (T, Settled) (trace w).
Proof.
  intros St H. destruct (happened_In _ _ H) as [c [e [I P]]].
  destruct e; try discriminate P.
  destruct (SettlesAt_steps message time options host n w St) as [_ At].
  rewrite <- (At c I). exact I.
Qed.

Lemma steps_settle (host : Host) (n : nat) (w : World) :
  steps time options (start host) n w ->
  T + 2 < Z.of_nat n ->
  In (T, Settled) (trace w).
Proof.
  intros St Hn. apply (settled_at host n w St).
  pose proof (happened_nonneg isSettled (trace w)) as N.
  destruct (Z.eq_dec (happened isSettled (trace w)) 0) as [Z0|]; [|lia].
  pose proof (steps_weight host n w St Z0).
  pose proof (weight_nonneg (timers w)).
  pose proof (weight_start host). lia.
Qed.

Lemma run_settle (host : Host) :
  In (T, Settled)
    (trace (run time options (Z.to_nat (T + 3)) (start host))).
Proof.
  pose proof (delayMs_pos (num time)) as D3.
  destruct (run_steps time options (Z.to_nat (T + 3))
              (start host) 0 (start host))
    as [m [St Hm]];
    [apply Supported_start | constructor|].
  destruct Hm as [->|N].
  - apply (steps_settle host _ _ St). lia.
  - apply (settled_at host _ _ St).
    pose proof (Alive_steps host _ _ St) as A.
    pose proof (a_settled _ _ _ A) as Hse.
    pose proof (next_None _ (a_supported _ _ _ A) N) as E.
    unfold overHandles in Hse. rewrite !E in Hse. simpl in Hse. lia.
Qed.

End EverySchedule.

(** X14.  Whatever the duration, the options and the host, the operation
    settles: with [T] the delay the runtime makes of [time], every run of
    the event loop of more than [T + 2] firings has settled, at clock [T],
    and the loop that fires the lowest handle first settles within
    [T + 3] firings. *)
Theorem temporaryMessage_always_settles :
  forall message time options host,
    let start := temporaryMessage message time options host initial in
    let T := delayMs (num time) in
    (forall n w,
        steps time options start n w ->
        T + 2 < Z.of_nat n ->
        In (T, Settled) (trace w))
    /\ In (T, Settled) (trace (run time options (Z.to_nat (T + 3)) start)).
Proof.
  intros message time options host start T. split.
  - intros n w St Hn. apply (steps_settle message time options host n w St).
    exact Hn.
  - apply run_settle.
Qed.

Lemma temporaryMessage_always_settles_witness :
  let options := mkOptions 1 (fun _ => "") 0 false in
  let start := temporaryMessage "Saved" 1 options CallsTaskLater initial in
  let w := run 1 options 4 start in
  steps 1 options start 4 w
  /\ delayMs (num 1) + 2 < Z.of_nat 4
  /\ In (1, Settled) (trace w).
Proof.
  intros options start w.
  assert (St : steps 1 options start 4 w).
  { destruct (run_steps 1 options 4 start 0 start)
      as [m [St [->|N]]];
      [apply Supported_start | constructor | exact St|].
    vm_compute in N. discriminate N. }
  assert (Hn : delayMs (num 1) + 2 < Z.of_nat 4) by reflexivity.
  split; [exact St|]. split; [exact Hn|].
  exact (proj1 (temporaryMessage_always_settles
                  "Saved" 1 options CallsTaskLater) 4%nat w St Hn).
Defined.

(** X15.  In every run the operation settles at most once and the jump to
    100% is reported at most once; with [endLength <= 0] no jump is ever
    reported. *)
Theorem temporaryMessage_settles_and_jumps_once :
  forall message time options host n w,
    steps time options (temporaryMessage message time options host initial)
      n w ->
    happened isSettled (trace w) <= 1
    /\ happened isJump (trace w) <= 1
    /\ (endLength options <= 0 -> happened isJump (trace w) = 0).
Proof.
  intros message time options host n w St.
  pose proof (Alive_steps message time options host n w St) as A.
  pose proof (a_settled _ _ _ A) as Hse.
  pose proof (a_jump _ _ _ A) as Hj.
  pose proof (overHandles_runs_nonneg ResolveCb (timers w)) as Nr.
  pose proof (overHandles_runs_nonneg JumpCb (timers w)) as Nj.
  pose proof (happened_nonneg isJump (trace w)) as Nh.
  split; [lia|]. split.
  - destruct (0 <? endLength options); lia.
  - intros E. apply Z.ltb_ge in E. rewrite E in Hj. lia.
Qed.

Lemma temporaryMessage_settles_and_jumps_once_witness :
  let options := mkOptions 1 (fun _ => "") 0 false in
  let start := temporaryMessage "Saved" 1 options CallsTaskLater initial in
  let w := run 1 options 4 start in
  steps 1 options start 4 w
  /\ endLength options <= 0
  /\ happened isSettled (trace w) <= 1
  /\ happened isJump (trace w) = 0.
Proof.
  intros options start w.
  assert (St : steps 1 options start 4 w).
  { destruct (run_steps 1 options 4 start 0 start)
      as [m [St [->|N]]];
      [apply Supported_start | constructor | exact St|].
    vm_compute in N. discriminate N. }
  assert (E : endLength options <= 0) by (simpl; lia).
  destruct (temporaryMessage_settles_and_jumps_once
              "Saved" 1 options CallsTaskLater 4%nat w St)
    as (Hs & _ & Hj).
  split; [exact St|]. split; [exact E|]. split; [exact Hs | exact (Hj E)].
Defined.

(** X16.  Every progress report of every run is one of three: the first
    one, of increment 0 at clock 0; the jump, of increment 100 and without
    a message, at the clock of the delay the runtime makes of
    [time - endLength], and only when [endLength > 0]; or a report of the
    tick timer with a message, and only with a host that calls the task
    after [temporaryMessage] has returned. *)
Theorem temporaryMessage_reports :
  forall message time options host n w,
    steps time options (temporaryMessage message time options host initial)
      n w ->
    forall c i m,
      In (c, Report i m) (trace w) ->
      (c = 0 /\ i = num 0 /\ m = None)
      \/ (0 < endLength options
          /\ c = delayMs (sub (num time) (num (endLength options)))
          /\ i = num 100 /\ m = None)
      \/ (host = CallsTaskLater /\ exists text, m = Some text).
Proof.
  intros message time options host n w St c i m I.
  pose proof (Alive_steps message time options host n w St) as A.
  destruct (a_reports _ _ _ A c i m I) as [H | [(Hc & Hi & Hm) | H]].
  - left. exact H.
  - right. left. split; [|auto]. subst i m.
    pose proof (a_jump _ _ _ A) as Hj.
    pose proof (overHandles_runs_nonneg JumpCb (timers w)) as Nj.
    destruct (0 <? endLength options) eqn:E; [apply Z.ltb_lt; exact E|].
    pose proof (happened_nonneg isJump (trace w)) as Nh.
    assert (Z0 : happened isJump (trace w) = 0) by lia.
    pose proof (happened_none _ _ Z0 c _ I) as F. discriminate F.
  - right. right. destruct m as [text|]; [|congruence].
    split; [|eauto]. destruct host; [|reflexivity].
    destruct (ClearedAtStart_steps message time options _ n w St)
      as [_ _ _ _ Honce _].
    destruct (Honce eq_refl) as (_ & Nil & _).
    pose proof (tickReports_nil _ Nil c i _ I) as F. discriminate F.
Qed.

Lemma temporaryMessage_reports_witness :
  let options := mkOptions 1 (fun _ => "tick") 1 false in
  let start := temporaryMessage "Saved" 2 options CallsTaskLater initial in
  let w := run 2 options 2 start in
  steps 2 options start 2 w
  /\ trace w
     = [(1, Report (num 100) None); (1, Report (num 100) (Some "tick"));
        (0, Report (num 0) None); (0, ClearInterval (-1));
        (0, WithProgress "Saved" false)]
  /\ (forall c i m,
         In (c, Report i m) (trace w) ->
         (c = 0 /\ i = num 0 /\ m = None)
         \/ (0 < endLength options
             /\ c = delayMs (sub (num 2) (num (endLength options)))
             /\ i = num 100 /\ m = None)
         \/ (CallsTaskLater = CallsTaskLater
             /\ exists text, m = Some text)).
Proof.
  intros options start w.
  assert (St : steps 2 options start 2 w).
  { destruct (run_steps 2 options 2 start 0 start)
      as [m [St [->|N]]];
      [apply Supported_start | constructor | exact St|].
    vm_compute in N. discriminate N. }
  split; [exact St|]. split; [reflexivity|].
  exact (temporaryMessage_reports "Saved" 2 options CallsTaskLater
           2%nat w St).
Defined.

(** *** The ticks of a host that calls the task later *)

Section Ticks.
Variable message : string.
Variable time : Z.
Variable options : Options.

#[local] Abbreviation start host :=
  (temporaryMessage message time options host initial).
#[local] Abbreviation period :=
  (delayMs (div (sub (num time) (num (endLength options)))
              (num (ticks options)))).

Lemma fire_tick (h : Z) (t : Timer) (w : World) :
  tick (fire time options h t w)
  = match callback t with
    | TickCb => tick w + 1
    | _ => tick w
    end.
Proof. unfold fire. destruct (callback t); reflexivity. Qed.

Lemma Ticking_start : Ticking period (start CallsTaskLater).
Proof.
  unfold temporaryMessage, task, setInterval, setTimeout, arm.
  destruct (0 <? endLength options); simpl; constructor; simpl.
  all: try reflexivity.
  all: try lia.
  all: try (unfold update; simpl; destruct period; reflexivity).
  all: intros h t H; table_cases H; intros C; try discriminate C;
    reflexivity.
Qed.

Lemma Ticking_fire (w : World) (h : Z) (t : Timer) :
  SettlesAt (delayMs (num time)) w ->
  Ticking period w -> Earliest w h t ->
  Ticking period (fire time options h t w).
Proof.
  intros [Htm _] [Hc Hcl Ha Ho] [Tt M].
  destruct (Htm h t Tt) as (Hnow & _ & _).
  destruct (fire_trace time options h t w) as [e [Etr Ev]].
  rewrite Z.max_r in Etr by exact Hnow.
  pose proof (fire_timers time options h t w) as Etm.
  rewrite Z.max_r in Etm by exact Hnow.
  pose proof (fire_tick h t w) as Etk.
  destruct (Z.eq_dec h 1) as [->|N1].
  - rewrite Ha in Tt. injection Tt as <-.
    cbn [due repeat callback] in *. destruct Ev as [m ->].
    constructor.
    + rewrite Etk. lia.
    + rewrite Etr, Etk, tickReports_cons, map_app, Hcl.
      replace (Z.to_nat (tick w + 1)) with (S (Z.to_nat (tick w))) by lia.
      rewrite seq_S, map_app. cbn [map fst]. do 2 f_equal.
      f_equal. lia.
    + rewrite Etm, Etk, update_same. do 2 f_equal. lia.
    + intros k x. rewrite Etm. unfold update.
      destruct (Z.eqb_spec k 1); [auto | apply Ho].
  - assert (C : callback t <> TickCb)
      by (intros C; apply N1; apply (Ho h t Tt C)).
    assert (Ee : tickReports ((due t, e) :: trace w)
                 = tickReports (trace w)).
    { rewrite tickReports_cons.
      destruct (callback t); [congruence|simpl in Ev..]; subst e;
        apply app_nil_r. }
    assert (Ek : tick (fire time options h t w) = tick w)
      by (rewrite Etk; destruct (callback t); congruence).
    constructor.
    + rewrite Ek. exact Hc.
    + rewrite Etr, Ek, Ee. exact Hcl.
    + rewrite Etm, Ek, update_other by (intros E1; apply N1; auto).
      exact Ha.
    + intros k x. rewrite Etm. unfold update.
      destruct (Z.eqb_spec k h) as [->|]; [|apply Ho].
      destruct (repeat t); [|discriminate].
      intros H. injection H as <-. cbn [callback]. intros C'.
      contradiction.
Qed.

Lemma Ticking_steps (n : nat) (w : World) :
  steps time options (start CallsTaskLater) n w -> Ticking period w.
Proof.
  intros St. induction St as [|n w1 w2 St IH [h t E]].
  - apply Ticking_start.
  - apply Ticking_fire; [|exact IH | exact E].
    apply (SettlesAt_steps message time options CallsTaskLater n w1 St).
Qed.

End Ticks.

(** X17.  With a host that calls the task after [temporaryMessage] has
    returned, the interval is never stopped: in every state of every run
    [tick] counts the reports of the tick timer, the [j]-th of them was
    made at clock [j * d], and the timer is armed for clock
    [(tick + 1) * d], where [d] is the delay the runtime makes of
    [(time - endLength) / ticks]. *)
Theorem temporaryMessage_ticks_evenly :
  forall message time options n w,
    steps time options
      (temporaryMessage message time options CallsTaskLater initial) n w ->
    let d := delayMs (div (sub (num time) (num (endLength options)))
                        (num (ticks options))) in
    0 <= tick w
    /\ map fst (tickReports (trace w))
       = map (fun j => Z.of_nat j * d) (seq 1 (Z.to_nat (tick w)))
    /\ timers w 1 = Some (mkTimer ((tick w + 1) * d) (Some d) TickCb).
Proof.
  intros message time options n w St d.
  destruct (Ticking_steps message time options n w St) as [Hc Hcl Ha _].
  auto.
Qed.

Lemma temporaryMessage_ticks_evenly_witness :
  let options := mkOptions 2 (fun _ => "tick") 0 false in
  let start := temporaryMessage "Saved" 6 options CallsTaskLater initial in
  let w := run 6 options 4 start in
  steps 6 options start 4 w
  /\ tick w = 3
  /\ map fst (tickReports (trace w)) = [3; 6; 9]
  /\ timers w 1 = Some (mkTimer 12 (Some 3) TickCb).
Proof.
  intros options start w.
  assert (St : steps 6 options start 4 w).
  { destruct (run_steps 6 options 4 start 0 start)
      as [m [St [->|N]]];
      [apply Supported_start | constructor | exact St|].
    vm_compute in N. discriminate N. }
  destruct (temporaryMessage_ticks_evenly "Saved" 6 options 4%nat w St)
    as (_ & Hcl & Ha).
  split; [exact St|]. split; [reflexivity|].
  split; [exact Hcl | exact Ha].
Defined.

End TimersFacts.

(** * COMMANDS: [commandExists] *)

Module CommandsFacts.
Import JS Commands.

Lemma includes_In (arr : list string) (x : string) :
  includes arr x = true <-> In x arr.
Proof.
  unfold includes. rewrite existsb_exists. split.
  - intros [y [Hy E]]. apply String.eqb_eq in E. subst. exact Hy.
  - intros H. exists x. split; [exact H | apply String.eqb_refl].
Qed.

(** X11.  [commandExists] answers true only when one of the given names is
    registered; when none of the given names is empty, it answers true
    exactly when at least one of them is registered, whatever the other
    names are. *)
Theorem commandExists_any :
  forall commands commandNames,
    (commandExists commands commandNames = true ->
     exists name,
       In name commandNames /\ In name commands /\ name <> "")
    /\ ((forall name, In name commandNames -> name <> "") ->
        (commandExists commands commandNames = true
         <-> exists name, In name commandNames /\ In name commands)).
Proof.
  intros commands names. unfold commandExists.
  destruct (find (fun name => includes commands name) names) as [n|] eqn:F.
  - apply find_some in F. destruct F as [Hn Hc]. apply includes_In in Hc.
    split.
    + intros T. exists n. split; [exact Hn|]. split; [exact Hc|].
      intros ->. discriminate T.
    + intros Hne. split; [intros _; eauto|].
      intros _. specialize (Hne n Hn). destruct n; [congruence|reflexivity].
  - split; [discriminate|].
    intros _. split; [discriminate|].
    intros [n [Hn Hc]]. apply includes_In in Hc.
    rewrite (find_none _ _ F n Hn) in Hc. discriminate.
Qed.

Lemma commandExists_any_witness :
  (forall name, In name ["missing.command"; "editor.fold"] -> name <> "")
  /\ commandExists ["editor.fold"; "editor.unfold"]
       ["missing.command"; "editor.fold"] = true.
Proof.
  assert (H : forall name,
             In name ["missing.command"; "editor.fold"] -> name <> "")
    by (intros name [<-|[<-|[]]]; discriminate).
  split; [exact H|].
  apply (proj2 (commandExists_any ["editor.fold"; "editor.unfold"]
                  ["missing.command"; "editor.fold"]) H).
  exists "editor.fold". simpl. auto.
Defined.

End CommandsFacts.

(** * GETTERS: the indentation *)

Module IndentationFacts.
Import JS JSFacts Indentation.

Lemma copies_length (s : string) (n : nat) :
  length (copies s n) = n * length s.
Proof.
  induction n as [|n IH]; simpl; [reflexivity|].
  rewrite length_append, IH. reflexivity.
Qed.

Lemma matchLoop_copies (unit : string) :
  unit <> "" ->
  forall k fuel,
    k <= fuel -> matchLoop fuel unit (copies unit k) = List.repeat unit k.
Proof.
  intros Hu. induction k as [|k IH]; intros fuel Hk.
  - destruct fuel; [reflexivity|]. cbn [matchLoop copies].
    rewrite findSplit_nil by exact Hu. reflexivity.
  - destruct fuel as [|fuel]; [lia|].
    cbn [matchLoop copies].
    rewrite findSplit_eq, prefix_append, drop_append.
    cbn [List.repeat]. rewrite IH by lia. reflexivity.
Qed.

Lemma matchAll_copies (unit : string) (k : nat) :
  unit <> "" -> matchAll (copies unit k) unit = List.repeat unit k.
Proof.
  intros Hu. unfold matchAll. destruct unit as [|c u]; [congruence|].
  apply matchLoop_copies; [discriminate|].
  rewrite copies_length. simpl. nia.
Qed.

(** X12.  With an editor that inserts tabs, or spaces for a tab size that
    is not negative, [VSCX.indent.offset] never throws: on a line of
    [amount] indents it returns the empty string
    when [amount + 2 * n <= 0], and [amount + n] times the indent text
    otherwise.  So it returns the empty string for some offsets that leave
    a level above 0. *)
Theorem indent_offset_returns :
  forall e n,
    (insertSpaces e = true -> (0 <= tabSize e)%Z) ->
    exists indent info,
      indentText (Some e) = Returns (Some indent)
      /\ currentLineIndentation (Some e) = Returns (Some info)
      /\ indentOffset (Some e) n
         = Returns
             (Some (if (Z.of_nat (amount info) + 2 * n <=? 0)%Z then ""
                    else copies indent
                           (Z.to_nat (Z.of_nat (amount info) + n)))).
Proof.
  intros e n Ht.
  assert (I : exists indent, indentText (Some e) = Returns (Some indent)).
  { unfold indentText, repeat.
    destruct (insertSpaces e); [|eauto].
    replace (tabSize e <? 0)%Z with false
      by (symmetry; apply Z.ltb_ge; apply Ht; reflexivity).
    eauto. }
  destruct I as [indent I]. exists indent.
  unfold indentOffset, currentLineIndentation. rewrite I.
  eexists. split; [reflexivity|]. split; [reflexivity|].
  cbn [amount]. unfold offset, repeat.
  set (a := List.length _).
  replace (Z.of_nat a + n + n)%Z with (Z.of_nat a + 2 * n)%Z by lia.
  destruct (Z.of_nat a + 2 * n <=? 0)%Z eqn:L; [reflexivity|].
  apply Z.leb_gt in L.
  replace (Z.of_nat a + n <? 0)%Z with false
    by (symmetry; apply Z.ltb_ge; lia).
  reflexivity.
Qed.

Lemma indent_offset_returns_witness :
  let e := mkTextEditor true 2 (mkTextLine "      return x;" 6) in
  (insertSpaces e = true -> (0 <= tabSize e)%Z)
  /\ indentOffset (Some e) (-2) = Returns (Some "")
  /\ indentOffset (Some e) 1 = Returns (Some "        ").
Proof.
  intros e.
  assert (Ht : insertSpaces e = true -> (0 <= tabSize e)%Z)
    by (intros _; simpl; lia).
  split; [exact Ht|].
  destruct (indent_offset_returns e (-2) Ht) as (i1 & f1 & I1 & C1 & O1).
  destruct (indent_offset_returns e 1 Ht) as (i2 & f2 & I2 & C2 & O2).
  injection I1 as <-. injection C1 as <-.
  injection I2 as <-. injection C2 as <-.
  split; [exact O1 | exact O2].
Defined.

(** X13.  On a line that starts with [k] copies of the indent text, the
    host giving [k] times its length as the index of the first code unit
    that is not white space, [currentLineIndentation] finds the [k] indents
    and [indent.offset(0)] gives back the indentation of the line. *)
Theorem indentation_round_trip :
  forall e unit k rest,
    indentText (Some e) = Returns (Some unit) ->
    unit <> "" ->
    text (currentLine e) = copies unit k ++ rest ->
    firstNonWhitespaceCharacterIndex (currentLine e) = k * length unit ->
    currentLineIndentation (Some e)
    = Returns (Some (mkLineIndentation (List.repeat unit k) k
                       (text (currentLine e))))
    /\ indentOffset (Some e) 0 = Returns (Some (copies unit k))
    /\ slice (text (currentLine e)) 0
         (firstNonWhitespaceCharacterIndex (currentLine e))
       = copies unit k.
Proof.
  intros e unit k rest I Hu Et Ef.
  assert (S0 : slice (text (currentLine e)) 0
                 (firstNonWhitespaceCharacterIndex (currentLine e))
               = copies unit k).
  { unfold slice. rewrite Et, Ef, Nat.sub_0_r, <- copies_length.
    apply substring_prefix. }
  assert (C : currentLineIndentation (Some e)
              = Returns (Some (mkLineIndentation (List.repeat unit k) k
                                 (text (currentLine e))))).
  { unfold currentLineIndentation. rewrite I, S0.
    rewrite (matchAll_copies unit k Hu), repeat_length. reflexivity. }
  split; [exact C|]. split; [|exact S0].
  unfold indentOffset. rewrite C, I. cbn [amount].
  unfold offset, repeat. rewrite !Z.add_0_r.
  destruct k as [|k]; [reflexivity|].
  replace (Z.of_nat (S k) <=? 0)%Z with false
    by (symmetry; apply Z.leb_gt; lia).
  replace (Z.of_nat (S k) <? 0)%Z with false
    by (symmetry; apply Z.ltb_ge; lia).
  rewrite Nat2Z.id. reflexivity.
Qed.

Lemma indentation_round_trip_witness :
  let e := mkTextEditor false 4
             (mkTextLine (tab ++ tab ++ "done") 2) in
  indentText (Some e) = Returns (Some tab)
  /\ indentOffset (Some e) 0 = Returns (Some (tab ++ tab)).
Proof.
  intros e.
  assert (I : indentText (Some e) = Returns (Some tab)) by reflexivity.
  split; [exact I|].
  assert (Hu : tab <> "") by discriminate.
  exact (proj1 (proj2 (indentation_round_trip e tab 2 "done" I Hu
                         eq_refl eq_refl))).
Defined.

End IndentationFacts.
